(** * DFA construction for the byte-oriented regexp engine (regexp/dfa.go)

    A shallow embedding of [dfaBuilder.build], [dfaBuilder.runState],
    [dfaBuilder.cachedState], [dfa.add] and [dfa.run], with the properties
    of the subset construction proved about them. *)

From Stdlib Require Import Ascii Decimal DecimalString DecimalNat.
From stdpp Require Import gmap strings list fin_maps.

(** ** Results of partial Go code

    An out-of-range slice index panics in Go.  [OutOfFuel] is the bound of
    the model's recursion; [build_total] shows that it is never reached,
    whatever the program. *)

Inductive result (A : Type) : Type :=
  | Ok (a : A)
  | Panic
  | OutOfFuel.
Arguments Ok {A} a.
Arguments Panic {A}.
Arguments OutOfFuel {A}.

#[global] Instance result_bind : MBind result := λ A B k m,
  match m with
  | Ok a => k a
  | Panic => Panic
  | OutOfFuel => OutOfFuel
  end.

(** [xs[i]] on a Go slice. *)
Definition index {A : Type} (xs : list A) (i : nat) : result A :=
  match xs !! i with
  | Some x => Ok x
  | None => Panic
  end.

(** ** Instructions *)

Inductive instOp : Type := OpMatch | OpJmp | OpSplit | OpRange.

(** Modelled from the spec: the instruction type and the program type are
    declared outside dfa.go; the fields are the ones dfa.go reads
    ([op], [to], [splitA], [splitB], [rangeStart], [rangeEnd]) and the four
    instruction kinds are those of the spec's data model.  Indices are Go
    [uint]s and range bounds are bytes. *)
Record inst : Type := Inst {
  op : instOp;
  to : nat;
  splitA : nat;
  splitB : nat;
  rangeStart : nat;
  rangeEnd : nat
}.

Abbreviation prog := (list inst).

Definition Jmp (t : nat) : inst := Inst OpJmp t 0 0 0 0.
Definition Split (a b : nat) : inst := Inst OpSplit 0 a b 0 0.
Definition Range (lo hi : nat) : inst := Inst OpRange 0 0 0 lo hi.
Definition Match : inst := Inst OpMatch 0 0 0 0 0.

(** ** Index sets *)

(** Modelled from the spec: the sparse set type is declared outside dfa.go.
    The spec gives it a capacity fixed at construction and a dense array in
    insertion order; [Add] appends when the index is absent and is a no-op
    otherwise, [Clear] resets the length, [Len] and [Get] iterate in
    insertion order.  [dense] is the live prefix of the dense array.  An
    index at or beyond the capacity is outside the backing arrays, a panic
    in Go. *)
Record sparseSet : Type := SparseSet {
  cap : nat;
  dense : list nat
}.

Definition newSparseSet (size : nat) : sparseSet := SparseSet size [].

Definition Len (s : sparseSet) : nat := length (dense s).

Definition Get (s : sparseSet) (i : nat) : result nat := index (dense s) i.

Definition Contains (s : sparseSet) (ip : nat) : result bool :=
  if decide (ip < cap s) then Ok (bool_decide (ip ∈ dense s)) else Panic.

Definition Add (s : sparseSet) (ip : nat) : result sparseSet :=
  if decide (ip < cap s) then
    Ok (if bool_decide (ip ∈ dense s) then s
        else SparseSet (cap s) (dense s ++ [ip]))
  else Panic.

Definition Clear (s : sparseSet) : sparseSet := SparseSet (cap s) [].

(** ** The DFA *)

Record state : Type := State {
  st_insts : list nat;
  st_next : list (option nat);
  st_match : bool
}.

Record dfa : Type := Dfa {
  insts : prog;
  states : list state
}.

Record dfaBuilder : Type := DfaBuilder {
  b_dfa : dfa;
  cache : gmap string nat
}.

(** [const StateLimit = 10000] *)
Definition StateLimit : nat := 100 * 100.
Arguments StateLimit : simpl never.

Inductive error : Type := ErrTooManyStates.

Definition newDfaBuilder (p : prog) : dfaBuilder :=
  DfaBuilder (Dfa p []) ∅.

(** ** [dfa.add]: the closure of one index into a set

    The recursion of [add] is bounded by the capacity of the set: every
    call that does not return at once puts a new index below the capacity
    into the set. *)

Fixpoint add_fuel (fuel : nat) (p : prog) (set : sparseSet) (ip : nat)
  : result sparseSet :=
  match fuel with
  | 0 => OutOfFuel
  | S fuel =>
    c ← Contains set ip;
    if (c : bool) then Ok set
    else
      set ← Add set ip;
      i ← index p ip;
      match op i with
      | OpJmp => add_fuel fuel p set (to i)
      | OpSplit =>
        set ← add_fuel fuel p set (splitA i);
        add_fuel fuel p set (splitB i)
      | _ => Ok set
      end
  end.

Definition add (d : dfa) (set : sparseSet) (ip : nat) : result sparseSet :=
  add_fuel (S (cap set)) (insts d) set ip.

(** ** [dfa.run]: the step on one byte *)

Definition in_range (i : inst) (b : nat) : bool :=
  bool_decide (rangeStart i ≤ b) && bool_decide (b ≤ rangeEnd i).

(** The loop [for i := 0; i < from.Len(); i++ { ip := from.Get(i); ... }]
    reads the dense list of [from] front to back; its body writes to [to]
    only.  [ips] is what is left to read. *)
Fixpoint run_loop (d : dfa) (ips : list nat) (b : nat)
    (to_ : sparseSet) (isMatch : bool) : result (sparseSet * bool) :=
  match ips with
  | [] => Ok (to_, isMatch)
  | ip :: ips =>
    i ← index (insts d) ip;
    match op i with
    | OpMatch => run_loop d ips b to_ true
    | OpRange =>
      if in_range i b then
        to_ ← add d to_ (ip + 1);
        run_loop d ips b to_ isMatch
      else run_loop d ips b to_ isMatch
    | _ => run_loop d ips b to_ isMatch
    end
  end.

Definition run (d : dfa) (from to_ : sparseSet) (b : nat)
  : result (sparseSet * bool) :=
  run_loop d (dense from) b (Clear to_) false.

(** ** [fmt.Sprintf("%v", insts)]: the cache key of a signature *)

Definition Sprint_uint (n : nat) : string :=
  NilEmpty.string_of_uint (Nat.to_uint n).

Fixpoint Sprint_elems (l : list nat) : string :=
  match l with
  | [] => "]"
  | [x] => Sprint_uint x +:+ "]"
  | x :: l => Sprint_uint x +:+ " " +:+ Sprint_elems l
  end.

Definition Sprintf_v (l : list nat) : string := "[" +:+ Sprint_elems l.

(** ** [dfaBuilder.cachedState] *)

(** The loop over [set.Get(i)] for [i < set.Len()], with [insts] and
    [isMatch] as accumulators.  [ips] is what is left to read. *)
Fixpoint cached_loop (p : prog) (ips : list nat) (acc : list nat)
    (isMatch : bool) : result (list nat * bool) :=
  match ips with
  | [] => Ok (acc, isMatch)
  | ip :: ips =>
    i ← index p ip;
    match op i with
    | OpRange => cached_loop p ips (acc ++ [ip]) isMatch
    | OpMatch => cached_loop p ips (acc ++ [ip]) true
    | _ => cached_loop p ips acc isMatch
    end
  end.

Definition cachedState (d : dfaBuilder) (set : sparseSet)
  : result (dfaBuilder * option nat) :=
  '(sig, isMatch) ← cached_loop (insts (b_dfa d)) (dense set) [] false;
  if decide (length sig = 0) then Ok (d, None)
  else
    let k := Sprintf_v sig in
    match cache d !! k with
    | Some v => Ok (d, Some v)
    | None =>
      let sts := states (b_dfa d) ++ [State sig (replicate 256 None) isMatch] in
      let newV := length sts - 1 in
      Ok (DfaBuilder (Dfa (insts (b_dfa d)) sts) (<[k := newV]> (cache d)),
          Some newV)
    end.

(** ** [dfaBuilder.runState] *)

(** [for _, ip := range insts { cur.Add(ip) }] *)
Fixpoint add_all (set : sparseSet) (ips : list nat) : result sparseSet :=
  match ips with
  | [] => Ok set
  | ip :: ips => set ← Add set ip; add_all set ips
  end.

(** [st.next[b] = v] *)
Definition set_next (st : state) (b : nat) (v : option nat) : result state :=
  if decide (b < length (st_next st)) then
    Ok (State (st_insts st) (<[b := v]> (st_next st)) (st_match st))
  else Panic.

Definition runState (d : dfaBuilder) (cur next : sparseSet) (s : nat) (b : nat)
  : result (dfaBuilder * sparseSet * sparseSet * option nat) :=
  let cur := Clear cur in
  st ← index (states (b_dfa d)) s;
  cur ← add_all cur (st_insts st);
  '(next, _) ← run (b_dfa d) cur next b;
  '(d, nextState) ← cachedState d next;
  st ← index (states (b_dfa d)) s;
  st ← set_next st b nextState;
  Ok (DfaBuilder (Dfa (insts (b_dfa d)) (<[s := st]> (states (b_dfa d))))
                 (cache d),
      cur, next, nextState).

(** ** The stack of state indices *)

Abbreviation uintpStack := (list (option nat)).

Definition Push (s : uintpStack) (v : option nat) : uintpStack := s ++ [v].

Definition Pop (s : uintpStack) : uintpStack * option nat :=
  match last s with
  | None => (s, None)
  | Some v => (removelast s, v)
  end.

(** ** [dfaBuilder.build] *)

(** The variables of [build] that live across the iterations of its loops. *)
Record frame : Type := Frame {
  f_d : dfaBuilder;
  f_cur : sparseSet;
  f_next : sparseSet;
  f_states : uintpStack;
  f_seen : gset nat
}.

(** The body of [for b := 0; b < 256; b++], run from byte [b] for [n] more
    bytes.  [inl] is the return from inside the loop, [inr] the normal end
    of the loop. *)
Fixpoint byte_loop (n : nat) (b : nat) (s : nat) (f : frame)
  : result (frame + frame) :=
  match n with
  | 0 => Ok (inr f)
  | S n =>
    '(d, cur, next, ns) ← runState (f_d f) (f_cur f) (f_next f) s b;
    let '(sts, seen) :=
      match ns with
      | Some v =>
        if bool_decide (v ∈ f_seen f) then (f_states f, f_seen f)
        else (Push (f_states f) ns, {[v]} ∪ f_seen f)
      | None => (f_states f, f_seen f)
      end in
    let f := Frame d cur next sts seen in
    if decide (StateLimit < length (states (b_dfa d))) then Ok (inl f)
    else byte_loop n (S b) s f
  end.

(** [for s != nil { ... }].  The result carries the frame at the moment
    of the return next to the two values [build] returns.  [fuel] bounds
    the number of states popped. *)
Fixpoint state_loop (fuel : nat) (s : option nat) (f : frame)
  : result (frame * (option dfa * option error)) :=
  match s with
  | None => Ok (f, (Some (b_dfa (f_d f)), None))
  | Some sv =>
    match fuel with
    | 0 => OutOfFuel
    | S fuel =>
      r ← byte_loop 256 0 sv f;
      match r with
      | inl f => Ok (f, (None, Some ErrTooManyStates))
      | inr f =>
        let '(sts, s) := Pop (f_states f) in
        state_loop fuel s (Frame (f_d f) (f_cur f) (f_next f) sts (f_seen f))
      end
    end
  end.

(** The part of [build] before its loop. *)
Definition build_init (d : dfaBuilder) : result (option nat * frame) :=
  let cur := newSparseSet (length (insts (b_dfa d))) in
  let next := newSparseSet (length (insts (b_dfa d))) in
  cur ← add (b_dfa d) cur 0;
  '(d, s0) ← cachedState d cur;
  let sts : uintpStack := [s0] in
  let seen : gset nat := ∅ in
  let '(sts, s) := Pop sts in
  Ok (s, Frame d cur next sts seen).

(** [build], with the frame it returns from.  A state index is pushed
    when it enters [seen], and [seen] holds indices of states only, so
    after the first no more than [StateLimit] states are popped. *)
Definition build_frame (d : dfaBuilder)
  : result (frame * (option dfa * option error)) :=
  '(s, f) ← build_init d;
  state_loop (S StateLimit) s f.

Definition build (d : dfaBuilder) : result (option dfa * option error) :=
  '(_, r) ← build_frame d;
  Ok r.

(** ** Well-formed programs and sets *)

(** An epsilon edge of the program: the jump of a [Jmp], either branch of
    a [Split]. *)
Definition eps_edge (p : prog) (i j : nat) : Prop :=
  ∃ x, p !! i = Some x ∧
    ((op x = OpJmp ∧ j = to x) ∨
     (op x = OpSplit ∧ (j = splitA x ∨ j = splitB x))).

(** The targets of every [Jmp] and [Split] are indices of the program. *)
Definition targets_ok (p : prog) : Prop :=
  ∀ i j, eps_edge p i j → j < length p.

(** The index after a [Range] is an index of the program. *)
Definition ranges_ok (p : prog) : Prop :=
  ∀ ip x, p !! ip = Some x → op x = OpRange → S ip < length p.

(** The programs [build] is written for: instruction 0 exists and no
    instruction leads out of the program. *)
Definition wf_prog (p : prog) : Prop :=
  0 < length p ∧ targets_ok p ∧ ranges_ok p.

(** A set of capacity [n] as the program leaves it: no index twice, every
    index below the capacity. *)
Definition set_ok (n : nat) (s : sparseSet) : Prop :=
  cap s = n ∧ NoDup (dense s) ∧ Forall (λ i, i < n) (dense s).

(** A list of indices closed under the epsilon edges. *)
Definition eps_closed (p : prog) (l : list nat) : Prop :=
  ∀ i j, i ∈ l → eps_edge p i j → j ∈ l.

(** Decidable forms of the conditions, for concrete programs. *)
Definition targets_okb (p : prog) : bool :=
  forallb (λ x, match op x with
                | OpJmp => bool_decide (to x < length p)
                | OpSplit => bool_decide (splitA x < length p)
                             && bool_decide (splitB x < length p)
                | _ => true
                end) p.

Definition ranges_okb (p : prog) : bool :=
  forallb (λ '(ip, x), match op x with
                       | OpRange => bool_decide (S ip < length p)
                       | _ => true
                       end) (imap pair p).

Definition wf_progb (p : prog) : bool :=
  bool_decide (0 < length p) && targets_okb p && ranges_okb p.

(** ** Example programs *)

(** [a], [a|b] and [(a)*]. *)
Definition prog_a : prog := [Range 97 97; Match].
Definition prog_alt : prog :=
  [Split 1 3; Range 97 97; Jmp 4; Range 98 98; Match].
Definition prog_star : prog := [Split 1 3; Range 97 97; Jmp 0; Match].

(** ** Characters of a cache key *)

(** A decimal digit. *)
Definition is_digit (c : ascii) : bool :=
  (48 <=? nat_of_ascii c) && (nat_of_ascii c <=? 57).

(** What follows the first number of a key. *)
Definition Sprint_tail (l : list nat) : string :=
  match l with
  | [] => "]"
  | _ => " " +:+ Sprint_elems l
  end.

(** ** Signatures *)

(** An index of a [Range] or a [Match]. *)
Definition significant (p : prog) (ip : nat) : bool :=
  match p !! ip with
  | Some x => match op x with OpRange | OpMatch => true | _ => false end
  | None => false
  end.

(** An index of a [Match]. *)
Definition matching (p : prog) (ip : nat) : bool :=
  match p !! ip with
  | Some x => match op x with OpMatch => true | _ => false end
  | None => false
  end.

(** The significant indices of a list, in the order of the list. *)
Definition sig_of (p : prog) (l : list nat) : list nat :=
  filter (λ ip, significant p ip) l.

(** The list holds the index of a [Match]. *)
Definition has_match (p : prog) (l : list nat) : bool :=
  existsb (matching p) l.

(** The indices the step on byte [b] starts its closures from. *)
Definition covers (p : prog) (b : nat) (ip : nat) : Prop :=
  ∃ x, p !! ip = Some x ∧ op x = OpRange ∧ rangeStart x ≤ b ≤ rangeEnd x.

(** ** The signatures a build can reach *)

(** The signature of the closure of instruction 0. *)
Definition start_sig (p : prog) : list nat :=
  match add (Dfa p []) (newSparseSet (length p)) 0 with
  | Ok cur => sig_of p (dense cur)
  | _ => []
  end.

(** The signature [run] steps to from the set holding signature [sig]. *)
Definition next_sig (p : prog) (sig : list nat) (b : nat) : list nat :=
  match run (Dfa p []) (SparseSet (length p) sig)
            (newSparseSet (length p)) b with
  | Ok (to', _) => sig_of p (dense to')
  | _ => []
  end.

(** The non-empty signatures reached from the start by steps on bytes. *)
Inductive reachable_sig (p : prog) : list nat → Prop :=
  | reach_start :
      start_sig p ≠ [] → reachable_sig p (start_sig p)
  | reach_step sig b :
      reachable_sig p sig → b < 256 → next_sig p sig b ≠ [] →
      reachable_sig p (next_sig p sig b).

(** ** The invariant of the builder *)

(** The signatures of the states, in the order of the states. *)
Definition sigs (d : dfaBuilder) : list (list nat) :=
  st_insts <$> states (b_dfa d).

(** What [cachedState] answers for a signature: nil for the empty one,
    else the index of the state that holds it. *)
Definition entry_ok (d : dfaBuilder) (sig : list nat) (o : option nat) : Prop :=
  match o with
  | None => sig = []
  | Some t => sig ≠ [] ∧ sigs d !! t = Some sig
  end.

(** The invariant of a builder for the well-formed program [p]: the
    signatures are non-empty lists of distinct significant indices that
    can be reached; every state has 256 slots, and a slot that is not
    reject holds the index of a state and has a [Range] of the signature
    covering its byte; the cache maps the key of each signature to the
    index of its state and holds nothing else. *)
Record BInv (p : prog) (d : dfaBuilder) : Prop := {
  binv_insts : insts (b_dfa d) = p;
  binv_sig : ∀ i sig, sigs d !! i = Some sig →
    sig ≠ [] ∧ NoDup sig ∧ Forall (λ ip, significant p ip) sig;
  binv_next : ∀ i st, states (b_dfa d) !! i = Some st →
    length (st_next st) = 256 ∧
    ∀ b t, st_next st !! b = Some (Some t) →
      t < length (states (b_dfa d)) ∧ ∃ ip, ip ∈ st_insts st ∧ covers p b ip;
  binv_cache : ∀ k v, cache d !! k = Some v ↔
    ∃ sig, sigs d !! v = Some sig ∧ k = Sprintf_v sig;
  binv_reach : ∀ i sig, sigs d !! i = Some sig → reachable_sig p sig
}.

(** The builder after [cachedState]: as before, or with one state more. *)
Definition grown (d d' : dfaBuilder) (sig : list nat) (r : option nat) : Prop :=
  d' = d ∨
  ∃ m, states (b_dfa d')
         = states (b_dfa d) ++ [State sig (replicate 256 None) m] ∧
       r = Some (length (states (b_dfa d))).

(** ** The loops of [build] *)

(** The slots of state [s] below byte [b] hold what [cachedState] answers
    for the step on them. *)
Definition filled_upto (p : prog) (d : dfaBuilder) (s b : nat) : Prop :=
  ∃ st, states (b_dfa d) !! s = Some st ∧
    ∀ b', b' < b → ∃ o, st_next st !! b' = Some o ∧
                        entry_ok d (next_sig p (st_insts st) b') o.

(** A fully processed state. *)
Definition closed (p : prog) (d : dfaBuilder) (s : nat) : Prop :=
  filled_upto p d s 256.

(** The invariant at the head of the byte loop, for the state [s] being
    processed and the next byte [b]. *)
Record FInv (p : prog) (s b : nat) (f : frame) : Prop := {
  finv_b : BInv p (f_d f);
  finv_cur : cap (f_cur f) = length p;
  finv_next : cap (f_next f) = length p;
  finv_limit : length (states (b_dfa (f_d f))) ≤ StateLimit;
  finv_start : start_sig p ≠ [] → sigs (f_d f) !! 0 = Some (start_sig p);
  finv_seen : ∀ v, v ∈ f_seen f → v < length (states (b_dfa (f_d f)));
  finv_stack : Forall (λ o, ∃ v, o = Some v ∧
                                 v < length (states (b_dfa (f_d f))))
                      (f_states f);
  finv_work : ∀ i, i < length (states (b_dfa (f_d f))) →
    i = s ∨ Some i ∈ f_states f ∨ closed p (f_d f) i;
  finv_filled : filled_upto p (f_d f) s b
}.

(** The invariant at the head of the loop over the stack, [s] being the
    state just popped. *)
Record OInv (p : prog) (s : option nat) (f : frame) : Prop := {
  oinv_b : BInv p (f_d f);
  oinv_cur : cap (f_cur f) = length p;
  oinv_next : cap (f_next f) = length p;
  oinv_limit : length (states (b_dfa (f_d f))) ≤ StateLimit;
  oinv_start : start_sig p ≠ [] → sigs (f_d f) !! 0 = Some (start_sig p);
  oinv_seen : ∀ v, v ∈ f_seen f → v < length (states (b_dfa (f_d f)));
  oinv_stack : Forall (λ o, ∃ v, o = Some v ∧
                                 v < length (states (b_dfa (f_d f))))
                      (f_states f);
  oinv_work : ∀ i, i < length (states (b_dfa (f_d f))) →
    Some i = s ∨ Some i ∈ f_states f ∨ closed p (f_d f) i;
  oinv_s : ∀ v, s = Some v → v < length (states (b_dfa (f_d f)));
  oinv_done : s = None → f_states f = []
}.

(** What [build] returns with: the error and more states than the limit,
    or the DFA, within the limit, every state fully processed. *)
Definition build_post (p : prog) (f : frame)
    (r : option dfa * option error) : Prop :=
  BInv p (f_d f) ∧
  ((r = (None, Some ErrTooManyStates) ∧
    StateLimit < length (states (b_dfa (f_d f)))) ∨
   (r = (Some (b_dfa (f_d f)), None) ∧
    length (states (b_dfa (f_d f))) ≤ StateLimit ∧
    (start_sig p ≠ [] → sigs (f_d f) !! 0 = Some (start_sig p)) ∧
    ∀ i, i < length (states (b_dfa (f_d f))) → closed p (f_d f) i)).

(** ** The points of a build *)

(** [at_byte p s b f]: the build of [p] is at the head of the byte loop,
    processing state [s], about to step on byte [b] (or, at 256, past the
    last byte), with frame [f]. *)
Inductive at_byte (p : prog) : nat → nat → frame → Prop :=
  | at_init s f :
      build_init (newDfaBuilder p) = Ok (Some s, f) → at_byte p s 0 f
  | at_next s b f f' :
      at_byte p s b f → b < 256 → byte_loop 1 b s f = Ok (inr f') →
      at_byte p s (S b) f'
  | at_pop s f sts s' :
      at_byte p s 256 f → Pop (f_states f) = (sts, Some s') →
      at_byte p s' 0 (Frame (f_d f) (f_cur f) (f_next f) sts (f_seen f)).

(** The invariant of the states: signatures hold indices of [Range] and
    [Match] instructions only, and transitions point at states. *)
Definition state_inv (p : prog) (sts : list state) : Prop :=
  ∀ i st, sts !! i = Some st →
    Forall (λ ip, ∃ x, p !! ip = Some x ∧ (op x = OpRange ∨ op x = OpMatch))
           (st_insts st) ∧
    ∀ b t, st_next st !! b = Some (Some t) → t < length sts.

(** ** The invariant of the states, for every program

    This part assumes nothing of the program: whenever the operations
    return, they keep the invariant. *)

(** The invariant of the states, with what keeps it: the cache holds
    indices of states. *)
Definition KInv (p : prog) (d : dfaBuilder) : Prop :=
  insts (b_dfa d) = p ∧
  state_inv p (states (b_dfa d)) ∧
  ∀ k v, cache d !! k = Some v → v < length (states (b_dfa d)).

(** The frame the byte loop ends with, either way. *)
Definition frame_of (r : frame + frame) : frame :=
  match r with inl f => f | inr f => f end.

(** What the loops keep, for every program, as far as the count of the
    iterations goes. *)
Definition GInv (p : prog) (f : frame) : Prop :=
  KInv p (f_d f) ∧
  (∀ v, v ∈ f_seen f → v < length (states (b_dfa (f_d f)))) ∧
  length (states (b_dfa (f_d f))) ≤ StateLimit.

(** ** The program [Range('a','a'), Match] *)

(** The DFA [build] returns for it. *)
Definition dfa_a : dfa :=
  Dfa prog_a
      [State [0] (<[97 := Some 1]> (replicate 256 None)) false;
       State [1] (replicate 256 None) true].

(** [set_ok] is decidable. *)
#[global] Instance set_ok_dec n s : Decision (set_ok n s).
Proof. unfold set_ok. apply _. Defined.

(** ** The shape of the states *)

(** Every state has 256 slots and a non-empty signature, and its match
    flag says whether the signature holds the index of a [Match]. *)
Definition state_shape (p : prog) (sts : list state) : Prop :=
  ∀ i st, sts !! i = Some st →
    length (st_next st) = 256 ∧ st_insts st ≠ [] ∧
    st_match st = has_match p (st_insts st).

Definition SInv (p : prog) (d : dfaBuilder) : Prop :=
  insts (b_dfa d) = p ∧ state_shape p (states (b_dfa d)).

(** ** The worklist *)

(** The stack holds no index twice and only indices recorded in [seen];
    the state being processed is recorded in [seen] unless it is state 0,
    and is on the stack only if it is state 0. *)
Definition WInv (s : nat) (f : frame) : Prop :=
  NoDup (f_states f) ∧
  (∀ o, o ∈ f_states f → ∃ v, o = Some v ∧ v ∈ f_seen f) ∧
  (s ∈ f_seen f ∨ s = 0) ∧
  (Some s ∈ f_states f → s = 0).

(** * Proofs *)

(** ** Evaluation on the example programs *)

Example StateLimit_value : N.of_nat StateLimit = 10000%N.
Proof. reflexivity. Qed.

Example Sprintf_v_13 : Sprintf_v [1; 3] = "[1 3]".
Proof. reflexivity. Qed.

Example Sprintf_v_120 : Sprintf_v [12; 0; 7] = "[12 0 7]".
Proof. reflexivity. Qed.

Example add_star :
  add (Dfa prog_star []) (newSparseSet 4) 0 = Ok (SparseSet 4 [0; 1; 3]).
Proof. reflexivity. Qed.

Example build_alt_states :
  ('(r, _) ← build (newDfaBuilder prog_alt);
   Ok (option_map (fun d => map (fun st => (st_insts st, st_match st,
                                          st_next st !! 97, st_next st !! 98,
                                          st_next st !! 99))
                                (states d)) r))
  = Ok (Some [([1; 3], false, Some (Some 1), Some (Some 1), Some None);
              ([4], true, Some None, Some None, Some None)]).
Proof. vm_compute. reflexivity. Qed.

(** ** The result monad *)

Lemma bind_Ok {A B} (a : A) (k : A → result B) : (Ok a ≫= k) = k a.
Proof. reflexivity. Qed.

Lemma bind_is_Ok {A B} (m : result A) (k : A → result B) (b : B) :
  (m ≫= k) = Ok b → ∃ a, m = Ok a ∧ k a = Ok b.
Proof. destruct m; simpl; [eauto | done | done]. Qed.

Lemma index_Ok {A} (xs : list A) i x : xs !! i = Some x → index xs i = Ok x.
Proof. unfold index. by intros ->. Qed.

Lemma index_is_Ok {A} (xs : list A) i x : index xs i = Ok x → xs !! i = Some x.
Proof. unfold index. destruct (xs !! i); naive_solver. Qed.

(** ** Index sets *)

(** [Get] below [Len] reads the dense list in order. *)
Lemma Get_dense s i ip : Get s i = Ok ip ↔ dense s !! i = Some ip.
Proof.
  unfold Get, index. destruct (dense s !! i); split; congruence.
Qed.

Lemma Get_Len s i : i < Len s → ∃ ip, Get s i = Ok ip.
Proof.
  intros [ip Hip]%lookup_lt_is_Some_2. exists ip. by apply Get_dense.
Qed.

Lemma set_ok_length n s : set_ok n s → length (dense s) ≤ n.
Proof.
  intros (_ & Hnd & Hlt).
  transitivity (length (seq 0 n)); [|by rewrite length_seq].
  apply submseteq_length, NoDup_submseteq; [done|].
  intros x Hx. apply elem_of_seq. rewrite Forall_forall in Hlt.
  specialize (Hlt x Hx). lia.
Qed.

Lemma set_ok_fresh n s ip :
  set_ok n s → ip < n → ip ∉ dense s →
  set_ok n (SparseSet (cap s) (dense s ++ [ip])).
Proof.
  intros (Hc & Hnd & Hlt) Hip Hni. split; [done|]. simpl. split.
  - apply NoDup_app. split; [done|]. split; [|apply NoDup_singleton].
    intros x Hx ->%list_elem_of_singleton. done.
  - apply Forall_app. split; [done|]. by apply Forall_singleton.
Qed.

Lemma set_ok_new n : set_ok n (newSparseSet n).
Proof. split; [done|]. split; [apply NoDup_nil_2 | apply Forall_nil_2]. Qed.

Lemma set_ok_Clear n s : cap s = n → set_ok n (Clear s).
Proof. intros. split; [done|]. split; [apply NoDup_nil_2 | apply Forall_nil_2]. Qed.

Lemma Contains_Ok n s ip :
  cap s = n → ip < n → Contains s ip = Ok (bool_decide (ip ∈ dense s)).
Proof. intros <- ?. unfold Contains. by rewrite decide_True. Qed.

Lemma Add_fresh n s ip :
  cap s = n → ip < n → ip ∉ dense s →
  Add s ip = Ok (SparseSet (cap s) (dense s ++ [ip])).
Proof.
  intros <- ? ?. unfold Add.
  rewrite decide_True by done. by rewrite bool_decide_eq_false_2.
Qed.

(** ** The closure *)

Lemma add_fuel_mono p fuel fuel' set ip :
  fuel ≤ fuel' → add_fuel fuel p set ip ≠ OutOfFuel →
  add_fuel fuel' p set ip = add_fuel fuel p set ip.
Proof.
  revert fuel' set ip. induction fuel as [|fuel IH]; intros fuel' set ip Hle;
    [done|].
  destruct fuel' as [|fuel']; [lia|]. simpl.
  destruct (Contains set ip) as [[]| |]; simpl; try done.
  destruct (Add set ip) as [set'| |]; simpl; try done.
  destruct (index p ip) as [i| |]; simpl; try done.
  destruct (op i); try done.
  - intros H. apply IH; [lia | done].
  - intros H.
    destruct (add_fuel fuel p set' (splitA i)) as [s1| |] eqn:E1; try done.
    + rewrite (IH fuel' set' (splitA i)) by (rewrite ?E1; done || lia).
      rewrite E1. simpl in *. apply IH; [lia | done].
    + rewrite (IH fuel' set' (splitA i)) by (rewrite ?E1; done || lia).
      by rewrite E1.
Qed.

Section closure.
Variable p : prog.
Hypothesis Htargets : targets_ok p.

Lemma eps_edge_op i j x :
  p !! i = Some x → eps_edge p i j → op x = OpJmp ∨ op x = OpSplit.
Proof.
  intros Hx (y & Hy & H). rewrite Hx in Hy. injection Hy as <-.
  destruct H as [[? _]|[? _]]; auto.
Qed.

(** What one call of the closure does, whatever the fuel above the
    number of indices still absent. *)
Lemma add_fuel_ok fuel : ∀ set ip,
  set_ok (length p) set → ip < length p →
  length p - length (dense set) < fuel →
  ∃ added,
    add_fuel fuel p set ip = Ok (SparseSet (cap set) (dense set ++ added)) ∧
    NoDup (dense set ++ added) ∧
    Forall (λ x, x < length p ∧ rtc (eps_edge p) ip x) added ∧
    ip ∈ dense set ++ added ∧
    (∀ x j, x ∈ added → eps_edge p x j → j ∈ dense set ++ added).
Proof.
  induction fuel as [|fuel IH]; intros set ip Hok Hip Hfuel; [lia|].
  pose proof Hok as (Hcap & Hnd & Hlt). simpl.
  rewrite (Contains_Ok (length p)) by done. simpl.
  case_bool_decide as Hin.
  { exists []. rewrite app_nil_r. destruct set. simpl.
    repeat split; try done. intros x j Hx. by apply elem_of_nil in Hx. }
  rewrite (Add_fresh (length p)) by done. simpl.
  destruct (lookup_lt_is_Some_2 p ip Hip) as [i Hi].
  rewrite (index_Ok _ _ _ Hi). simpl.
  pose proof (set_ok_fresh _ _ _ Hok Hip Hin) as Hok'.
  pose proof (set_ok_length _ _ Hok') as Hlen'. simpl in Hlen'.
  rewrite length_app in Hlen'. simpl in Hlen'.
  set (set' := SparseSet (cap set) (dense set ++ [ip])) in *.
  assert (Hfuel' : length p - length (dense set') < fuel).
  { simpl. rewrite length_app. simpl. lia. }
  assert (Hipin : ip ∈ dense set ++ [ip]).
  { apply elem_of_app. right. by apply list_elem_of_singleton. }
  destruct (op i) eqn:Hop.
  - (* Match *)
    exists [ip]. repeat split; try done.
    + by destruct Hok' as (_ & ? & _).
    + by apply Forall_singleton.
    + intros x j ->%list_elem_of_singleton He.
      destruct (eps_edge_op _ _ _ Hi He); congruence.
  - (* Jmp *)
    assert (Hto : to i < length p).
    { apply (Htargets ip). exists i. naive_solver. }
    destruct (IH set' (to i) Hok' Hto Hfuel')
      as (added & -> & Hnd' & Hreach & Hin' & Hcl).
    simpl in *. exists (ip :: added).
    replace (dense set ++ ip :: added) with ((dense set ++ [ip]) ++ added)
      by (by rewrite <- app_assoc).
    repeat split; try done.
    + apply Forall_cons. split; [done|].
      eapply Forall_impl; [exact Hreach|]. intros x [? Hx]. split; [done|].
      eapply rtc_l; [|exact Hx]. exists i. naive_solver.
    + apply elem_of_app. left. exact Hipin.
    + intros x j [->|Hx]%elem_of_cons He; [|by eapply Hcl].
      destruct He as (y & Hy & He).
        assert (y = i) as -> by congruence.
      destruct He as [[_ ->]|[? _]]; [exact Hin' | congruence].
  - (* Split *)
    assert (Ha : splitA i < length p).
    { apply (Htargets ip). exists i. naive_solver. }
    assert (Hb : splitB i < length p).
    { apply (Htargets ip). exists i. naive_solver. }
    destruct (IH set' (splitA i) Hok' Ha Hfuel')
      as (add1 & -> & Hnd1 & Hreach1 & Hin1 & Hcl1).
    simpl in *.
    set (s1 := SparseSet (cap set) ((dense set ++ [ip]) ++ add1)) in *.
    assert (Hok1 : set_ok (length p) s1).
    { split; [done|]. split; [done|]. simpl.
      apply Forall_app. split; [by destruct Hok' as (_ & _ & ?)|].
      eapply Forall_impl; [exact Hreach1|]. by intros x [? _]. }
    assert (Hfuel1 : length p - length (dense s1) < fuel).
    { simpl. rewrite !length_app. simpl. lia. }
    destruct (IH s1 (splitB i) Hok1 Hb Hfuel1)
      as (add2 & -> & Hnd2 & Hreach2 & Hin2 & Hcl2).
    simpl in *. exists (ip :: add1 ++ add2).
    replace (dense set ++ ip :: add1 ++ add2)
      with (((dense set ++ [ip]) ++ add1) ++ add2)
      by (by rewrite <- !app_assoc).
    repeat split; try done.
    + apply Forall_cons. split; [done|]. apply Forall_app. split.
      * eapply Forall_impl; [exact Hreach1|]. intros x [? Hx].
        split; [done|]. eapply rtc_l; [|exact Hx]. exists i. naive_solver.
      * eapply Forall_impl; [exact Hreach2|]. intros x [? Hx].
        split; [done|]. eapply rtc_l; [|exact Hx]. exists i. naive_solver.
    + do 2 (apply elem_of_app; left). exact Hipin.
    + intros x j [->|[Hx|Hx]%elem_of_app]%elem_of_cons He.
      * destruct He as (y & Hy & He).
        assert (y = i) as -> by congruence.
        destruct He as [[? _]|[_ [->| ->]]]; [congruence| |exact Hin2].
        apply elem_of_app. left. exact Hin1.
      * apply elem_of_app. left. by eapply Hcl1.
      * by eapply Hcl2.
  - (* Range *)
    exists [ip]. repeat split; try done.
    + by destruct Hok' as (_ & ? & _).
    + by apply Forall_singleton.
    + intros x j ->%list_elem_of_singleton He.
      destruct (eps_edge_op _ _ _ Hi He); congruence.
Qed.
End closure.

Lemma targets_okb_sound p : targets_okb p = true → targets_ok p.
Proof.
  unfold targets_okb. rewrite forallb_forall. intros H i j (x & Hx & He).
  specialize (H x). rewrite <- list_elem_of_In in H.
  specialize (H (list_elem_of_lookup_2 _ _ _ Hx)).
  destruct He as [[Hop ->]|[Hop Hj]]; rewrite Hop in H.
  - by apply bool_decide_eq_true in H.
  - apply andb_true_iff in H as [Ha%bool_decide_eq_true Hb%bool_decide_eq_true].
    by destruct Hj as [-> | ->].
Qed.

Lemma ranges_okb_sound p : ranges_okb p = true → ranges_ok p.
Proof.
  unfold ranges_okb. rewrite forallb_forall. intros H ip x Hx Hop.
  specialize (H (ip, x)). rewrite <- list_elem_of_In in H.
  assert (Hin : (ip, x) ∈ imap pair p).
  { apply list_elem_of_lookup. exists ip. rewrite list_lookup_imap, Hx. done. }
  specialize (H Hin). simpl in H. rewrite Hop in H.
  by apply bool_decide_eq_true in H.
Qed.

Lemma wf_progb_sound p : wf_progb p = true → wf_prog p.
Proof.
  unfold wf_progb. intros [[H0 Ht]%andb_true_iff Hr]%andb_true_iff.
  apply bool_decide_eq_true in H0.
  split; [done|]. split; [by apply targets_okb_sound | by apply ranges_okb_sound].
Qed.

Section add_total.
Variable d : dfa.
Hypothesis Htargets : targets_ok (insts d).

Lemma add_ok set ip :
  set_ok (length (insts d)) set → ip < length (insts d) →
  ∃ added,
    add d set ip = Ok (SparseSet (cap set) (dense set ++ added)) ∧
    NoDup (dense set ++ added) ∧
    Forall (λ x, x < length (insts d) ∧ rtc (eps_edge (insts d)) ip x) added ∧
    ip ∈ dense set ++ added ∧
    (∀ x j, x ∈ added → eps_edge (insts d) x j → j ∈ dense set ++ added).
Proof.
  intros Hok Hip. apply add_fuel_ok; try done.
  destruct Hok as (-> & _). lia.
Qed.

Lemma add_set_ok set ip r :
  set_ok (length (insts d)) set → ip < length (insts d) →
  add d set ip = Ok r → set_ok (length (insts d)) r.
Proof.
  intros Hok Hip Hr.
  destruct (add_ok set ip Hok Hip) as (added & E & Hnd & Hreach & _).
  rewrite E in Hr. injection Hr as <-. destruct Hok as (Hc & _ & Hlt).
  split; [done|]. split; [done|]. simpl. apply Forall_app. split; [done|].
  eapply Forall_impl; [exact Hreach|]. by intros x [? _].
Qed.

(** Below the top of the recursion the fuel left is still enough, so
    the recursive calls are calls of [add] itself. *)
Lemma add_fuel_inner set ip :
  set_ok (length (insts d)) set → ip < length (insts d) →
  dense set ≠ [] →
  add_fuel (cap set) (insts d) set ip = add d set ip.
Proof.
  intros Hok Hip Hne. symmetry. unfold add.
  apply add_fuel_mono; [lia|].
  destruct (add_fuel_ok (insts d) Htargets (cap set) set ip Hok Hip)
    as (added & -> & _); [|done].
  destruct Hok as (-> & _). destruct (dense set); [done|]. simpl. lia.
Qed.
End add_total.

(** C3. For a program whose [Jmp] and [Split] targets are in bounds, a set
    of the program's capacity and an index [ip] of the program: [add]
    leaves the set as it is when [ip] is in it; otherwise it appends [ip]
    and then closes over the target of a [Jmp], over [splitA] and then
    [splitB] of a [Split], and stops at a [Range] or a [Match]; in every
    case [ip] is a member of the result. *)
Theorem add_unfold (d : dfa) (set : sparseSet) (ip : nat) :
  targets_ok (insts d) → set_ok (length (insts d)) set →
  ip < length (insts d) →
  (ip ∈ dense set → add d set ip = Ok set) ∧
  (ip ∉ dense set → ∀ i, insts d !! ip = Some i →
     let set' := SparseSet (cap set) (dense set ++ [ip]) in
     (op i = OpJmp → add d set ip = add d set' (to i)) ∧
     (op i = OpSplit →
        add d set ip = (s ← add d set' (splitA i); add d s (splitB i))) ∧
     (op i = OpRange ∨ op i = OpMatch → add d set ip = Ok set')) ∧
  (∃ r, add d set ip = Ok r ∧ ip ∈ dense r).
Proof.
  intros Ht Hok Hip. pose proof Hok as (Hcap & Hnd & Hlt).
  split; [|split].
  - intros Hin. unfold add. simpl.
    rewrite (Contains_Ok (length (insts d))) by done. simpl.
    by rewrite bool_decide_eq_true_2.
  - intros Hin i Hi set'.
    pose proof (set_ok_fresh _ _ _ Hok Hip Hin) as Hok'. fold set' in Hok'.
    assert (Hne : dense set' ≠ []).
    { simpl. by destruct (dense set). }
    assert (Hunf : add d set ip =
      match op i with
      | OpJmp => add_fuel (cap set') (insts d) set' (to i)
      | OpSplit => s ← add_fuel (cap set') (insts d) set' (splitA i);
                   add_fuel (cap set') (insts d) s (splitB i)
      | _ => Ok set'
      end).
    { unfold add. simpl.
      rewrite (Contains_Ok (length (insts d))) by done. simpl.
      rewrite bool_decide_eq_false_2 by done.
      rewrite (Add_fresh (length (insts d))) by done. simpl.
      rewrite (index_Ok _ _ _ Hi). simpl. by destruct (op i). }
    rewrite Hunf. split; [|split].
    + intros Hop. rewrite Hop. apply add_fuel_inner; try done.
      apply (Ht ip). exists i. naive_solver.
    + intros Hop. rewrite Hop.
      assert (Ha : splitA i < length (insts d)).
      { apply (Ht ip). exists i. naive_solver. }
      assert (Hb : splitB i < length (insts d)).
      { apply (Ht ip). exists i. naive_solver. }
      rewrite add_fuel_inner by done.
      destruct (add_ok d Ht set' (splitA i) Hok' Ha) as (add1 & E & _).
      rewrite E. simpl.
      pose proof (add_set_ok d Ht _ _ _ Hok' Ha E) as Hok1.
      apply (add_fuel_inner d Ht _ (splitB i) Hok1 Hb).
      simpl. by destruct (dense set).
    + intros [Hop|Hop]; by rewrite Hop.
  - destruct (add_ok d Ht set ip Hok Hip) as (added & E & _ & _ & Hin & _).
    eauto.
Qed.

(** C4. For a program whose [Jmp] and [Split] targets are in bounds, the
    closure returns (the bound on its recursion is never reached, cycles
    and diamonds included), the set it returns is the one it was given
    with indices appended, and no index occurs twice in it: an index is
    added at most once, and never when it was present. *)
Theorem add_terminates (d : dfa) (set : sparseSet) (ip : nat) :
  targets_ok (insts d) → set_ok (length (insts d)) set →
  ip < length (insts d) →
  ∃ added,
    add d set ip = Ok (SparseSet (cap set) (dense set ++ added)) ∧
    NoDup (dense set ++ added).
Proof.
  intros Ht Hok Hip.
  destruct (add_ok d Ht set ip Hok Hip) as (added & E & Hnd & _). eauto.
Qed.

Lemma append_String c x y : String c x +:+ y = String c (x +:+ y).
Proof. reflexivity. Qed.

Lemma String_inj a b s t : String a s = String b t → a = b ∧ s = t.
Proof. by intros [= -> ->]. Qed.

Lemma string_of_uint_sep d1 d2 c1 c2 s1 s2 :
  is_digit c1 = false → is_digit c2 = false →
  NilEmpty.string_of_uint d1 +:+ String c1 s1
    = NilEmpty.string_of_uint d2 +:+ String c2 s2 →
  d1 = d2 ∧ String c1 s1 = String c2 s2.
Proof.
  intros H1 H2. revert d2.
  induction d1 as [|d1 IH|d1 IH|d1 IH|d1 IH|d1 IH|d1 IH|d1 IH|d1 IH|d1 IH|d1 IH];
    intros [|d2|d2|d2|d2|d2|d2|d2|d2|d2|d2].
  all: cbn [NilEmpty.string_of_uint].
  all: rewrite ?append_String.
  all: intros Heq.
  all: try (split; [reflexivity|exact Heq]).
  all: apply String_inj in Heq as [Hc Heq].
  all: try discriminate Hc.
  all: try (destruct (IH _ Heq) as [-> ?]; split; [reflexivity|assumption]).
  all: subst.
  all: first [ vm_compute in H1; discriminate H1
                 | vm_compute in H2; discriminate H2 ].
Qed.

Lemma to_uint_nonnil n : Nat.to_uint n ≠ Nil.
Proof.
  rewrite <- (DecimalNat.Unsigned.of_to n) at 1.
  rewrite DecimalNat.Unsigned.to_of. apply DecimalFacts.unorm_nonnil.
Qed.

Lemma Sprint_elems_cons x l :
  Sprint_elems (x :: l) = Sprint_uint x +:+ Sprint_tail l.
Proof. by destruct l. Qed.

Lemma Sprint_tail_sep l :
  ∃ c s, Sprint_tail l = String c s ∧ is_digit c = false.
Proof. destruct l; simpl; eauto. Qed.

Lemma Sprint_elems_inj l1 l2 : Sprint_elems l1 = Sprint_elems l2 → l1 = l2.
Proof.
  revert l2. induction l1 as [|x l1 IH]; intros [|y l2].
  - done.
  - rewrite Sprint_elems_cons.
    destruct (Sprint_tail_sep l2) as (c & s & -> & Hc). intros Heq.
    apply (string_of_uint_sep Nil _ "]"%char c "" s) in Heq as [Heq _]; [|done..].
    symmetry in Heq. by apply to_uint_nonnil in Heq.
  - rewrite Sprint_elems_cons.
    destruct (Sprint_tail_sep l1) as (c & s & -> & Hc). intros Heq.
    apply (string_of_uint_sep _ Nil c "]"%char s "") in Heq as [Heq _]; [|done..].
    by apply to_uint_nonnil in Heq.
  - rewrite !Sprint_elems_cons.
    destruct (Sprint_tail_sep l1) as (c1 & s1 & E1 & Hc1).
    destruct (Sprint_tail_sep l2) as (c2 & s2 & E2 & Hc2).
    rewrite E1, E2. intros Heq.
    apply string_of_uint_sep in Heq as [Hxy Heq]; [|done..].
    apply DecimalNat.Unsigned.to_uint_inj in Hxy as ->.
    rewrite <- E1, <- E2 in Heq. f_equal.
    destruct l1, l2; try done.
    apply IH. unfold Sprint_tail in Heq. by apply String_inj in Heq as [_ ?].
Qed.

Lemma Sprintf_v_inj l1 l2 : Sprintf_v l1 = Sprintf_v l2 → l1 = l2.
Proof.
  unfold Sprintf_v. intros [_ H]%String_inj. by apply Sprint_elems_inj.
Qed.

(** ** Signatures *)

Lemma cached_loop_ok p ips acc m :
  Forall (λ ip, ip < length p) ips →
  cached_loop p ips acc m
    = Ok (acc ++ sig_of p ips, m || has_match p ips).
Proof.
  revert acc m. induction ips as [|ip ips IH]; intros acc m Hlt; simpl.
  - by rewrite app_nil_r, orb_false_r.
  - apply Forall_cons in Hlt as [Hip Hlt].
    destruct (lookup_lt_is_Some_2 p ip Hip) as [x Hx].
    rewrite (index_Ok _ _ _ Hx). simpl.
    assert (Hs : significant p ip =
                 match op x with OpRange | OpMatch => true | _ => false end).
    { unfold significant. by rewrite Hx. }
    assert (Hm : matching p ip =
                 match op x with OpMatch => true | _ => false end).
    { unfold matching. by rewrite Hx. }
    rewrite Hm. unfold sig_of in *.
    destruct (op x); rewrite IH by done.
    + rewrite filter_cons_True by (by rewrite Hs).
      rewrite <- app_assoc. simpl. by rewrite orb_true_r.
    + rewrite filter_cons_False by (rewrite Hs; exact id). done.
    + rewrite filter_cons_False by (rewrite Hs; exact id). done.
    + rewrite filter_cons_True by (by rewrite Hs).
      by rewrite <- app_assoc.
Qed.

Lemma sig_of_significant p l : Forall (λ ip, significant p ip) (sig_of p l).
Proof.
  apply Forall_forall. intros ip Hip.
  by apply list_elem_of_filter in Hip as [? _].
Qed.

Lemma sig_of_id p l : Forall (λ ip, significant p ip) l → sig_of p l = l.
Proof.
  induction 1 as [|ip l Hip _ IH]; [done|].
  unfold sig_of. rewrite filter_cons_True by done. by rewrite <- IH at 2.
Qed.

Lemma significant_lt p ip : significant p ip → ip < length p.
Proof.
  unfold significant. destruct (p !! ip) eqn:E; [|done].
  intros _. by eapply lookup_lt_Some.
Qed.

(** ** [add] and [run] read the program only *)

Lemma add_insts d d' set ip : insts d = insts d' → add d set ip = add d' set ip.
Proof. unfold add. by intros ->. Qed.

Lemma run_loop_insts d d' ips b to_ m :
  insts d = insts d' → run_loop d ips b to_ m = run_loop d' ips b to_ m.
Proof.
  intros E. revert to_ m. induction ips as [|ip ips IH]; intros to_ m; [done|].
  simpl. rewrite E. destruct (index (insts d') ip) as [x| |]; [|done..]. simpl.
  destruct (op x); try done. destruct (in_range x b); [|done].
  rewrite (add_insts d d') by done.
  destruct (add d' to_ (ip + 1)); [|done..]. simpl. apply IH.
Qed.

Lemma run_insts d d' from to_ b :
  insts d = insts d' → run d from to_ b = run d' from to_ b.
Proof. intros. by apply run_loop_insts. Qed.

(** ** The step *)

Lemma in_range_spec x b : in_range x b = true ↔ rangeStart x ≤ b ≤ rangeEnd x.
Proof.
  unfold in_range. rewrite andb_true_iff, !bool_decide_eq_true. done.
Qed.

Lemma eps_closed_rtc p l i j :
  eps_closed p l → i ∈ l → rtc (eps_edge p) i j → j ∈ l.
Proof.
  intros Hcl Hi Hij. induction Hij as [|x y z Hxy _ IH]; [done|].
  apply IH. by eapply Hcl.
Qed.

Lemma add_closed d set ip r :
  targets_ok (insts d) → set_ok (length (insts d)) set →
  ip < length (insts d) → eps_closed (insts d) (dense set) →
  add d set ip = Ok r →
  set_ok (length (insts d)) r ∧ eps_closed (insts d) (dense r) ∧
  ∀ j, j ∈ dense r ↔ j ∈ dense set ∨ rtc (eps_edge (insts d)) ip j.
Proof.
  intros Ht Hok Hip Hcl Hr.
  split; [by eapply add_set_ok|].
  destruct (add_ok d Ht set ip Hok Hip) as (added & E & _ & Hreach & Hin & Hadd).
  rewrite E in Hr. injection Hr as <-. simpl.
  assert (Hcl' : eps_closed (insts d) (dense set ++ added)).
  { intros i j [Hi|Hi]%elem_of_app He.
    - apply elem_of_app. left. by eapply Hcl.
    - by eapply Hadd. }
  split; [done|]. intros j. split.
  - intros [Hj|Hj]%elem_of_app; [by left|]. right.
    rewrite Forall_forall in Hreach. by apply Hreach.
  - intros [Hj|Hj]; [apply elem_of_app; by left|].
    by eapply eps_closed_rtc.
Qed.

Lemma has_match_spec p l :
  has_match p l = true ↔ ∃ ip x, ip ∈ l ∧ p !! ip = Some x ∧ op x = OpMatch.
Proof.
  unfold has_match. rewrite existsb_exists. split.
  - intros (ip & Hin%list_elem_of_In & Hm). unfold matching in Hm.
    destruct (p !! ip) as [x|] eqn:E; [|done].
    exists ip, x. split; [done|]. split; [done|]. by destruct (op x).
  - intros (ip & x & Hin & Hx & Hop). exists ip.
    split; [by apply list_elem_of_In|]. unfold matching. by rewrite Hx, Hop.
Qed.

Section step.
Variable d : dfa.
Hypothesis Htargets : targets_ok (insts d).
Hypothesis Hranges : ranges_ok (insts d).

Lemma run_loop_ok b ips : ∀ to_ m,
  Forall (λ ip, ip < length (insts d)) ips →
  set_ok (length (insts d)) to_ → eps_closed (insts d) (dense to_) →
  ∃ to',
    run_loop d ips b to_ m = Ok (to', m || has_match (insts d) ips) ∧
    set_ok (length (insts d)) to' ∧ eps_closed (insts d) (dense to') ∧
    ∀ j, j ∈ dense to' ↔
         j ∈ dense to_ ∨
         ∃ ip, ip ∈ ips ∧ covers (insts d) b ip ∧
               rtc (eps_edge (insts d)) (ip + 1) j.
Proof.
  induction ips as [|ip ips IH]; intros to_ m Hlt Hok Hcl.
  { exists to_. simpl. rewrite orb_false_r.
    split; [done|]. split; [done|]. split; [done|]. intros j. split.
    - intros ?. by left.
    - intros [?|(ip & Hip & _)]; [done|]. by apply elem_of_nil in Hip. }
  apply Forall_cons in Hlt as [Hip Hlt].
  destruct (lookup_lt_is_Some_2 (insts d) ip Hip) as [x Hx].
  assert (Hm : matching (insts d) ip =
               match op x with OpMatch => true | _ => false end).
  { unfold matching. by rewrite Hx. }
  (* the iterations that leave [to_] as it is *)
  assert (Hskip : ¬ covers (insts d) b ip →
    ∀ m' r, m' || has_match (insts d) ips = r →
    ∃ to',
      run_loop d ips b to_ m' = Ok (to', r) ∧
      set_ok (length (insts d)) to' ∧ eps_closed (insts d) (dense to') ∧
      ∀ j, j ∈ dense to' ↔
           j ∈ dense to_ ∨
           ∃ ip0, ip0 ∈ ip :: ips ∧ covers (insts d) b ip0 ∧
                  rtc (eps_edge (insts d)) (ip0 + 1) j).
  { intros Hnc m' r Hm'.
    destruct (IH to_ m' Hlt Hok Hcl) as (to' & E & Hok' & Hcl' & Hmem).
    exists to'. rewrite E, Hm'.
    split; [done|]. split; [done|]. split; [done|]. intros j. split.
    - intros Hj. apply Hmem in Hj as [?|(ip0 & ? & ? & ?)]; [by left|].
      right. exists ip0. split; [by apply elem_of_cons; right|done].
    - intros [?|(ip0 & [->|?]%elem_of_cons & ? & ?)]; apply Hmem;
        [by left|done|]. right. by exists ip0. }
  simpl. rewrite (index_Ok _ _ _ Hx). simpl. rewrite Hm.
  destruct (op x) eqn:Hop.
  - apply Hskip; [|by rewrite orb_true_r].
    intros (y & Hy & Hop' & _). congruence.
  - apply Hskip; [|done]. intros (y & Hy & Hop' & _). congruence.
  - apply Hskip; [|done]. intros (y & Hy & Hop' & _). congruence.
  - destruct (in_range x b) eqn:Hr.
    + assert (Hnext : ip + 1 < length (insts d)).
      { rewrite Nat.add_1_r. by eapply Hranges. }
      destruct (add_ok d Htargets to_ (ip + 1) Hok Hnext) as (added & E & _).
      rewrite E. simpl.
      destruct (add_closed d _ _ _ Htargets Hok Hnext Hcl E)
        as (Hok1 & Hcl1 & Hmem1).
      destruct (IH _ m Hlt Hok1 Hcl1) as (to' & E' & Hok' & Hcl' & Hmem).
      exists to'. rewrite E'.
      split; [done|]. split; [done|]. split; [done|]. intros j. split.
      * intros Hj. apply Hmem in Hj as [Hj|(ip0 & ? & ? & ?)].
        -- apply Hmem1 in Hj as [?|?]; [by left|]. right. exists ip.
           split; [by apply elem_of_cons; left|]. split; [|done].
           apply in_range_spec in Hr. by exists x.
        -- right. exists ip0. split; [by apply elem_of_cons; right|done].
      * intros [?|(ip0 & [->|?]%elem_of_cons & ? & ?)]; apply Hmem.
        -- left. apply Hmem1. by left.
        -- left. apply Hmem1. by right.
        -- right. by exists ip0.
    + apply Hskip; [|done]. intros (y & Hy & _ & Hr').
      apply in_range_spec in Hr'. congruence.
Qed.

Lemma run_ok from to_ b :
  set_ok (length (insts d)) from → cap to_ = length (insts d) →
  ∃ to',
    run d from to_ b = Ok (to', has_match (insts d) (dense from)) ∧
    set_ok (length (insts d)) to' ∧
    ∀ j, j ∈ dense to' ↔
         ∃ ip, ip ∈ dense from ∧ covers (insts d) b ip ∧
               rtc (eps_edge (insts d)) (ip + 1) j.
Proof.
  intros (_ & _ & Hlt) Hcap. unfold run.
  destruct (run_loop_ok b (dense from) (Clear to_) false Hlt)
    as (to' & E & Hok' & _ & Hmem).
  { by apply set_ok_Clear. }
  { intros i j Hi. by apply elem_of_nil in Hi. }
  exists to'. split; [done|]. split; [done|]. intros j.
  rewrite Hmem. simpl. split; [|by right].
  intros [Hj|?]; [|done]. by apply elem_of_nil in Hj.
Qed.
End step.

(** C5. For a program whose targets are in bounds and whose [Range]s have
    a next instruction, a from-set and a byte [b]: [run] returns, its
    flag is true exactly when the from-set holds the index of a [Match],
    and the to-set it returns, whatever the to-set held before, has as
    members exactly the indices reached through [Jmp] and [Split] edges
    from [ip + 1] for the [ip] of the from-set that are [Range]s
    covering [b]. *)
Theorem run_step (d : dfa) (from to_ : sparseSet) (b : nat) :
  targets_ok (insts d) → ranges_ok (insts d) →
  set_ok (length (insts d)) from → cap to_ = length (insts d) →
  ∃ to' wasMatch,
    run d from to_ b = Ok (to', wasMatch) ∧
    (wasMatch = true ↔
       ∃ ip x, ip ∈ dense from ∧ insts d !! ip = Some x ∧ op x = OpMatch) ∧
    NoDup (dense to') ∧
    (∀ j, j ∈ dense to' ↔
          ∃ ip x, ip ∈ dense from ∧ insts d !! ip = Some x ∧
                  op x = OpRange ∧ rangeStart x ≤ b ≤ rangeEnd x ∧
                  rtc (eps_edge (insts d)) (ip + 1) j).
Proof.
  intros Ht Hr Hok Hcap.
  destruct (run_ok d Ht Hr from to_ b Hok Hcap) as (to' & E & Hok' & Hmem).
  exists to', (has_match (insts d) (dense from)).
  split; [done|]. split; [apply has_match_spec|].
  split; [by destruct Hok' as (_ & ? & _)|].
  intros j. rewrite Hmem. split.
  - intros (ip & Hip & (x & Hx & Hop & Hcov) & Hj). by exists ip, x.
  - intros (ip & x & Hip & Hx & Hop & Hcov & Hj).
    exists ip. split; [done|]. split; [by exists x|done].
Qed.

(** ** The invariant of the builder and [cachedState] *)

Lemma sigs_length d : length (sigs d) = length (states (b_dfa d)).
Proof. unfold sigs. by rewrite length_fmap. Qed.

Lemma sigs_lookup d i st :
  states (b_dfa d) !! i = Some st → sigs d !! i = Some (st_insts st).
Proof. intros H. unfold sigs. by rewrite list_lookup_fmap, H. Qed.

Lemma sigs_lookup_inv d i sig :
  sigs d !! i = Some sig →
  ∃ st, states (b_dfa d) !! i = Some st ∧ st_insts st = sig.
Proof.
  unfold sigs. rewrite list_lookup_fmap.
  destruct (states (b_dfa d) !! i) as [st|]; [|done].
  intros [= <-]. eauto.
Qed.

Lemma BInv_inj p d i j sig :
  BInv p d → sigs d !! i = Some sig → sigs d !! j = Some sig → i = j.
Proof.
  intros HI Hi Hj.
  assert (cache d !! Sprintf_v sig = Some i) as Ei.
  { apply (binv_cache p d HI). eauto. }
  assert (cache d !! Sprintf_v sig = Some j) as Ej.
  { apply (binv_cache p d HI). eauto. }
  congruence.
Qed.

Lemma BInv_new p : BInv p (newDfaBuilder p).
Proof.
  split; simpl; try done.
  intros k v. rewrite lookup_empty. split; [done|].
  by intros (sig & ? & _).
Qed.

Lemma sig_of_NoDup p l : NoDup l → NoDup (sig_of p l).
Proof. apply NoDup_filter. Qed.

Lemma cachedState_ok p d set :
  BInv p d → set_ok (length p) set →
  (sig_of p (dense set) ≠ [] → reachable_sig p (sig_of p (dense set))) →
  ∃ d' r,
    cachedState d set = Ok (d', r) ∧ BInv p d' ∧
    entry_ok d' (sig_of p (dense set)) r ∧
    grown d d' (sig_of p (dense set)) r.
Proof.
  intros HI (Hcap & Hnd & Hlt) Hreach.
  pose proof (binv_insts p d HI) as Hp.
  unfold cachedState. rewrite Hp, cached_loop_ok by done. simpl.
  set (sig := sig_of p (dense set)) in *.
  set (m := has_match p (dense set)).
  destruct (decide (length sig = 0)) as [H0|H0].
  { exists d, None. split; [done|]. split; [done|].
    split; [by apply length_zero_iff_nil|by left]. }
  assert (Hne : sig ≠ []) by (by intros ->).
  destruct (cache d !! Sprintf_v sig) as [v|] eqn:Ec.
  { exists d, (Some v). split; [done|]. split; [done|]. split; [|by left].
    split; [done|].
    apply (binv_cache p d HI) in Ec as (sig' & Hv & Hk).
    by apply Sprintf_v_inj in Hk as ->. }
  set (new := State sig (replicate 256 None) m).
  set (d' := DfaBuilder (Dfa p (states (b_dfa d) ++ [new]))
                        (<[Sprintf_v sig := length (states (b_dfa d) ++ [new]) - 1]>
                           (cache d))).
  assert (Hlen : length (states (b_dfa d) ++ [new]) - 1
                 = length (states (b_dfa d))).
  { rewrite length_app. simpl. lia. }
  assert (Hsigs : sigs d' = sigs d ++ [sig]).
  { unfold sigs. simpl. by rewrite fmap_app. }
  assert (Hfresh : ∀ i, sigs d !! i = Some sig → False).
  { intros i Hi.
    assert (cache d !! Sprintf_v sig = Some i); [|congruence].
    apply (binv_cache p d HI). eauto. }
  exists d', (Some (length (states (b_dfa d) ++ [new]) - 1)).
  split; [done|]. rewrite Hlen. split; [|split].
  - split.
    + done.
    + intros i sig'. rewrite Hsigs.
      intros [Hi|[_ Hi]]%lookup_app_Some; [by eapply (binv_sig p d HI)|].
      destruct (i - length (sigs d)); [|done]. injection Hi as <-.
      split; [done|]. split; [by apply sig_of_NoDup|].
      apply sig_of_significant.
    + intros i st. simpl.
      intros [Hi|[_ Hi]]%lookup_app_Some.
      * destruct (binv_next p d HI i st Hi) as [Hl Hb]. split; [done|].
        intros b t Ht. destruct (Hb b t Ht) as [? ?]. split; [|done].
        rewrite length_app. lia.
      * destruct (i - length (states (b_dfa d))); [|done].
        injection Hi as <-. split; [apply length_replicate|].
        intros b t Ht. unfold new in Ht. cbn [st_next] in Ht.
        apply lookup_replicate in Ht as [? _]. done.
    + intros k v. rewrite Hsigs. simpl. rewrite Hlen.
      destruct (decide (Sprintf_v sig = k)) as [<-|Hk].
      * rewrite lookup_insert_eq. split.
        -- intros [= <-]. exists sig. split; [|done].
           rewrite <- sigs_length. rewrite lookup_app_r by done.
           by rewrite Nat.sub_diag.
        -- intros (sig' & Hv & Hk). apply Sprintf_v_inj in Hk as <-.
           apply lookup_app_Some in Hv as [Hv|[Hge Hv]].
           ++ by destruct (Hfresh v).
           ++ destruct (v - length (sigs d)) eqn:E; [|done].
              rewrite sigs_length in *. f_equal. lia.
      * rewrite lookup_insert_ne by done.
        rewrite (binv_cache p d HI). split.
        -- intros (sig' & Hv & ->). exists sig'. split; [|done].
           apply lookup_app_Some. by left.
        -- intros (sig' & Hv & ->). exists sig'. split; [|done].
           apply lookup_app_Some in Hv as [Hv|[_ Hv]]; [done|].
           destruct (v - length (sigs d)); [|done]. by injection Hv as <-.
    + intros i sig'. rewrite Hsigs.
      intros [Hi|[_ Hi]]%lookup_app_Some; [by eapply (binv_reach p d HI)|].
      destruct (i - length (sigs d)); [|done]. injection Hi as <-. auto.
  - split; [done|]. rewrite Hsigs, <- sigs_length.
    rewrite lookup_app_r by done. by rewrite Nat.sub_diag.
  - right. by exists m.
Qed.

(** ** [runState] *)

Lemma add_all_ok n pre l :
  NoDup (pre ++ l) → Forall (λ ip, ip < n) l →
  add_all (SparseSet n pre) l = Ok (SparseSet n (pre ++ l)).
Proof.
  revert pre. induction l as [|ip l IH]; intros pre Hnd Hlt; simpl.
  - by rewrite app_nil_r.
  - apply Forall_cons in Hlt as [Hip Hlt].
    assert (Hni : ip ∉ pre).
    { apply NoDup_app in Hnd as (_ & Hd & _). intros Hin.
      apply (Hd ip Hin). by apply elem_of_cons; left. }
    rewrite (Add_fresh n) by done. simpl.
    rewrite IH; [by rewrite <- app_assoc| |done].
    by rewrite <- app_assoc.
Qed.

Lemma run_next_sig p d from to_ b :
  insts d = p → cap from = length p → cap to_ = length p →
  ∀ to' m, run d from to_ b = Ok (to', m) →
  next_sig p (dense from) b = sig_of p (dense to').
Proof.
  intros Hp Hf Ht to' m E. unfold next_sig.
  replace (run (Dfa p []) (SparseSet (length p) (dense from))
               (newSparseSet (length p)) b) with (run d from to_ b);
    [by rewrite E|].
  unfold run, Clear. rewrite Ht. simpl. by apply run_loop_insts.
Qed.

Lemma next_sig_covers p sig b :
  wf_prog p → NoDup sig → Forall (λ ip, ip < length p) sig →
  next_sig p sig b ≠ [] → ∃ ip, ip ∈ sig ∧ covers p b ip.
Proof.
  intros (_ & Ht & Hr) Hnd Hlt Hne. unfold next_sig in Hne.
  destruct (run_ok (Dfa p []) Ht Hr (SparseSet (length p) sig)
                   (newSparseSet (length p)) b) as (to' & E & _ & Hmem);
    [done..|].
  rewrite E in Hne.
  destruct (sig_of p (dense to')) as [|j ?] eqn:Es; [done|].
  assert (Hj : j ∈ dense to').
  { assert (j ∈ sig_of p (dense to')) as Hj by (rewrite Es; by left).
    by apply list_elem_of_filter in Hj as [_ ?]. }
  apply Hmem in Hj as (ip & ? & ? & _). eauto.
Qed.

Lemma BInv_sig_lt p d i sig :
  BInv p d → sigs d !! i = Some sig → Forall (λ ip, ip < length p) sig.
Proof.
  intros HI Hi. destruct (binv_sig p d HI i sig Hi) as (_ & _ & Hs).
  eapply Forall_impl; [exact Hs|]. intros ip. apply significant_lt.
Qed.

Lemma entry_ok_mono d d' sig o :
  sigs d `prefix_of` sigs d' → entry_ok d sig o → entry_ok d' sig o.
Proof.
  intros Hpre. destruct o as [t|]; [|done]. intros [Hne Ht].
  split; [done|]. by eapply prefix_lookup_Some.
Qed.

Lemma runState_ok p d cur next s b st :
  wf_prog p → BInv p d →
  cap cur = length p → cap next = length p →
  states (b_dfa d) !! s = Some st → b < 256 →
  ∃ d' cur' next' ns,
    runState d cur next s b = Ok (d', cur', next', ns) ∧
    BInv p d' ∧ cap cur' = length p ∧ cap next' = length p ∧
    sigs d `prefix_of` sigs d' ∧
    (∀ i, i ≠ s → i < length (states (b_dfa d)) →
          states (b_dfa d') !! i = states (b_dfa d) !! i) ∧
    states (b_dfa d') !! s
      = Some (State (st_insts st) (<[b := ns]> (st_next st)) (st_match st)) ∧
    entry_ok d' (next_sig p (st_insts st) b) ns ∧
    (length (states (b_dfa d')) = length (states (b_dfa d)) ∨
     (length (states (b_dfa d')) = S (length (states (b_dfa d))) ∧
      ns = Some (length (states (b_dfa d))))).
Proof.
  intros Hwf HI Hcur Hnext Hs Hb.
  pose proof Hwf as (Hpos & Ht & Hr).
  pose proof (binv_insts p d HI) as Hp.
  pose proof (sigs_lookup d s st Hs) as Hsig.
  destruct (binv_sig p d HI s _ Hsig) as (Hne & Hnd & Hsg).
  pose proof (BInv_sig_lt p d s _ HI Hsig) as Hlt.
  destruct (binv_next p d HI s st Hs) as [Hlen Hent].
  unfold runState. rewrite (index_Ok _ _ _ Hs). simpl.
  unfold Clear. rewrite Hcur.
  rewrite (add_all_ok (length p) [] (st_insts st)) by done. simpl.
  set (from := SparseSet (length p) (st_insts st)).
  assert (Hfrom : set_ok (length p) from) by done.
  destruct (run_ok (b_dfa d)) with (from := from) (to_ := next) (b := b)
    as (to' & E & Hok' & Hmem); [by rewrite Hp..|].
  rewrite Hp in Hok'. rewrite E. simpl.
  pose proof (run_next_sig p (b_dfa d) from next b Hp eq_refl Hnext _ _ E)
    as Hns. simpl in Hns.
  destruct (cachedState_ok p d to' HI Hok') as (d1 & ns & E1 & HI1 & Hen & Hgr).
  { rewrite <- Hns. intros Hne'. apply reach_step; [|done..].
    by eapply binv_reach. }
  rewrite E1. simpl. rewrite <- Hns in Hen, Hgr.
  assert (Hpre : sigs d `prefix_of` sigs d1).
  { destruct Hgr as [->|(m & Hst & _)]; [done|].
    unfold sigs. rewrite Hst, fmap_app. by apply prefix_app_r. }
  assert (Hs1 : states (b_dfa d1) !! s = Some st).
  { destruct Hgr as [->|(m & Hst & _)]; [done|].
    rewrite Hst. by apply lookup_app_l_Some. }
  rewrite (index_Ok _ _ _ Hs1). simpl.
  unfold set_next. rewrite decide_True by lia. simpl.
  set (st' := State (st_insts st) (<[b := ns]> (st_next st)) (st_match st)).
  set (d' := DfaBuilder (Dfa (insts (b_dfa d1)) (<[s := st']> (states (b_dfa d1))))
                        (cache d1)).
  assert (Hsigs : sigs d' = sigs d1).
  { unfold sigs. simpl. rewrite list_fmap_insert. simpl.
    apply list_insert_id. by rewrite list_lookup_fmap, Hs1. }
  assert (Hlen1 : s < length (states (b_dfa d1))) by (by eapply lookup_lt_Some).
  assert (Hen' : entry_ok d' (next_sig p (st_insts st) b) ns).
  { eapply entry_ok_mono; [|exact Hen]. by rewrite Hsigs. }
  exists d', from, to', ns. split; [done|].
  split; [|split; [done|]; split; [by destruct Hok'|];
           split; [by rewrite Hsigs|]; split; [|split; [|split; [done|]]]].
  - split.
    + simpl. by apply (binv_insts p d1).
    + rewrite Hsigs. by apply (binv_sig p d1).
    + intros i sti. simpl. rewrite length_insert.
      destruct (decide (i = s)) as [->|Hi].
      * rewrite list_lookup_insert_eq by done. intros [= <-]. simpl.
        rewrite length_insert. split; [done|]. intros b' t.
        destruct (decide (b' = b)) as [->|Hb'].
        -- rewrite list_lookup_insert_eq by lia. intros [= ->].
           destruct Hen as [Hne' Ht']. split.
           ++ rewrite <- sigs_length. by eapply lookup_lt_Some.
           ++ by apply next_sig_covers.
        -- rewrite list_lookup_insert_ne by done. intros Ht'.
           by apply (binv_next p d1 HI1 s st Hs1).
      * rewrite list_lookup_insert_ne by done. by apply (binv_next p d1).
    + rewrite Hsigs. by apply (binv_cache p d1).
    + rewrite Hsigs. by apply (binv_reach p d1).
  - intros i Hi Hil. simpl. rewrite list_lookup_insert_ne by done.
    destruct Hgr as [->|(m & Hst & _)]; [done|].
    rewrite Hst. by apply lookup_app_l.
  - simpl. by apply list_lookup_insert_eq.
  - simpl. rewrite length_insert.
    destruct Hgr as [->|(m & Hst & ->)]; [by left|]. right.
    rewrite Hst, length_app. simpl. split; [lia|done].
Qed.

(** ** The loops of [build] *)

Lemma filled_upto_mono p d d' s b :
  sigs d `prefix_of` sigs d' →
  states (b_dfa d') !! s = states (b_dfa d) !! s →
  filled_upto p d s b → filled_upto p d' s b.
Proof.
  intros Hpre Hs (st & Hst & Hf). exists st. split; [congruence|].
  intros b' Hb'. destruct (Hf b' Hb') as (o & Ho & He).
  exists o. split; [done|]. by eapply entry_ok_mono.
Qed.

Lemma size_bounded (X : gset nat) n : (∀ v, v ∈ X → v < n) → size X ≤ n.
Proof.
  intros H. rewrite <- (size_set_seq (C := gset nat) 0 n).
  apply subseteq_size. intros v Hv. apply elem_of_set_seq.
  specialize (H v Hv). lia.
Qed.

Lemma byte_loop_S n b s f :
  byte_loop (S n) b s f =
  (r ← byte_loop 1 b s f;
   match r with
   | inl f' => Ok (inl f')
   | inr f' => byte_loop n (S b) s f'
   end).
Proof.
  simpl. destruct (runState (f_d f) (f_cur f) (f_next f) s b)
    as [[[[d cur] next] ns]| |]; [|done..]. simpl.
  destruct (match ns with
            | Some v =>
              if bool_decide (v ∈ f_seen f) then (f_states f, f_seen f)
              else (Push (f_states f) ns, {[v]} ∪ f_seen f)
            | None => (f_states f, f_seen f)
            end) as [sts seen].
  by destruct (decide (StateLimit < length (states (b_dfa d)))).
Qed.

(** One turn of the byte loop. *)
Lemma byte_step_ok p (Hwf : wf_prog p) s b f :
  FInv p s b f → b < 256 →
  ∃ r, byte_loop 1 b s f = Ok r ∧
    match r with
    | inl f' => BInv p (f_d f') ∧
                StateLimit < length (states (b_dfa (f_d f')))
    | inr f' => FInv p s (S b) f' ∧
                ∃ k, length (f_states f') = length (f_states f) + k ∧
                     size (f_seen f') = size (f_seen f) + k
    end.
Proof.
  intros HF Hbn.
  destruct HF as [HI Hcur Hnext Hlim Hstart Hseen Hstack Hwork Hfill].
  destruct Hfill as (st & Hst & Hfill).
  destruct (runState_ok p (f_d f) (f_cur f) (f_next f) s b st)
    as (d' & cur' & next' & ns & E & HI' & Hcur' & Hnext' & Hpre & Hother
        & Hs' & Hen & Hgrow); [done..|].
  simpl. rewrite E. simpl.
  assert (Hle : length (states (b_dfa (f_d f)))
                ≤ length (states (b_dfa d'))) by (destruct Hgrow; lia).
  set (pushed := match ns with
                 | Some v => negb (bool_decide (v ∈ f_seen f))
                 | None => false
                 end).
  set (sts' := if pushed then Push (f_states f) ns else f_states f).
  set (seen' := match ns with
                | Some v => if pushed then {[v]} ∪ f_seen f else f_seen f
                | None => f_seen f
                end).
  assert (Hpair : match ns with
      | Some v =>
        if bool_decide (v ∈ f_seen f) then (f_states f, f_seen f)
        else (Push (f_states f) ns, {[v]} ∪ f_seen f)
      | None => (f_states f, f_seen f)
      end = (sts', seen')).
  { unfold sts', seen', pushed. destruct ns as [v|]; [|done].
    by destruct (bool_decide (v ∈ f_seen f)). }
  rewrite Hpair.
  destruct (decide (StateLimit < length (states (b_dfa d')))) as [Hover|Hin].
  { eexists (inl _). split; [done|]. by split. }
  assert (Hk : ∃ k, length sts' = length (f_states f) + k ∧
                    size seen' = size (f_seen f) + k).
  { unfold sts', seen', pushed. destruct ns as [v|]; [|exists 0; lia].
    case_bool_decide as Hv; simpl; [exists 0; lia|]. exists 1.
    unfold Push. rewrite length_app. simpl. split; [done|].
    rewrite size_union by (by apply disjoint_singleton_l).
    rewrite size_singleton. lia. }
  eexists (inr _). split; [done|]. split; [|done].
  - split; simpl; try done.
    + lia.
    + intros Hne. eapply prefix_lookup_Some; [by apply Hstart|done].
    + intros v. unfold seen', pushed. destruct ns as [w|]; [|].
      * case_bool_decide as Hw; simpl.
        -- intros Hv. specialize (Hseen v Hv). lia.
        -- intros [->%elem_of_singleton|Hv]%elem_of_union.
           ++ destruct Hen as [_ Hw']. rewrite <- sigs_length.
              by eapply lookup_lt_Some.
           ++ specialize (Hseen v Hv). lia.
      * intros Hv. specialize (Hseen v Hv). lia.
    + assert (Hold : Forall (λ o, ∃ v, o = Some v ∧
                          v < length (states (b_dfa d'))) (f_states f)).
      { eapply Forall_impl; [exact Hstack|]. intros o (v & -> & Hv).
        exists v. split; [done|lia]. }
      unfold sts', pushed. destruct ns as [w|]; [|done].
      case_bool_decide; simpl; [done|]. unfold Push.
      apply Forall_app. split; [done|]. apply Forall_singleton.
      exists w. split; [done|]. destruct Hen as [_ Hw'].
      rewrite <- sigs_length. by eapply lookup_lt_Some.
    + intros i Hi. destruct (decide (i = s)) as [|Hne]; [by left|]. right.
      destruct (decide (i < length (states (b_dfa (f_d f))))) as [Hold|Hnew].
      * destruct (Hwork i Hold) as [?|[Hin'|Hcl]]; [done| |].
        -- left. unfold sts'. destruct pushed; [|done].
           apply elem_of_app. by left.
        -- right. eapply filled_upto_mono; [exact Hpre| |exact Hcl].
           by apply Hother.
      * left. destruct Hgrow as [Hsame|[Hlen ->]]; [lia|].
        assert (i = length (states (b_dfa (f_d f)))) as -> by lia.
        unfold sts', pushed. rewrite bool_decide_eq_false_2.
        -- simpl. apply elem_of_app. right. by apply list_elem_of_singleton.
        -- intros Hv. specialize (Hseen _ Hv). lia.
    + eexists. split; [exact Hs'|]. simpl. intros b' Hb'.
      destruct (decide (b' = b)) as [->|Hne].
      * exists ns. split; [|done]. apply list_lookup_insert_eq.
        destruct (binv_next p _ HI s st Hst) as [-> _]. lia.
      * destruct (Hfill b' ltac:(lia)) as (o & Ho & He).
        exists o. rewrite list_lookup_insert_ne by done. split; [done|].
        by eapply entry_ok_mono.
Qed.

Lemma byte_loop_ok p (Hwf : wf_prog p) s n : ∀ b f,
  FInv p s b f → b + n = 256 →
  ∃ r, byte_loop n b s f = Ok r ∧
    match r with
    | inl f' => BInv p (f_d f') ∧
                StateLimit < length (states (b_dfa (f_d f')))
    | inr f' => FInv p s 256 f' ∧
                ∃ k, length (f_states f') = length (f_states f) + k ∧
                     size (f_seen f') = size (f_seen f) + k
    end.
Proof.
  induction n as [|n IH]; intros b f HF Hbn.
  { exists (inr f). split; [done|]. replace b with 256 in HF by lia.
    split; [done|]. exists 0. lia. }
  destruct (byte_step_ok p Hwf s b f HF) as (r1 & E1 & H1); [lia|].
  rewrite byte_loop_S, E1, bind_Ok. destruct r1 as [f1|f1].
  { by exists (inl f1). }
  destruct H1 as [HF1 (k1 & Hk1 & Hk1')].
  destruct (IH (S b) f1 HF1) as (r & Er & Hr); [lia|].
  exists r. split; [done|]. destruct r as [f'|f']; [done|].
  destruct Hr as [HF' (k' & Hk2 & Hk2')]. split; [done|].
  exists (k1 + k'). lia.
Qed.

Lemma Pop_nil : Pop [] = ([], None).
Proof. done. Qed.

Lemma Pop_snoc (l : list (option nat)) v : Pop (l ++ [v]) = (l, v).
Proof. unfold Pop. by rewrite last_snoc, removelast_last. Qed.

Lemma state_loop_S fuel sv f :
  state_loop (S fuel) (Some sv) f =
  (r ← byte_loop 256 0 sv f;
   match r with
   | inl f => Ok (f, (None, Some ErrTooManyStates))
   | inr f =>
     let '(sts, s) := Pop (f_states f) in
     state_loop fuel s (Frame (f_d f) (f_cur f) (f_next f) sts (f_seen f))
   end).
Proof. reflexivity. Qed.

Lemma state_loop_None p fuel f :
  OInv p None f →
  ∃ f' r, state_loop fuel None f = Ok (f', r) ∧ build_post p f' r.
Proof.
  intros [HI Hcur Hnext Hlim Hstart Hseen Hstack Hwork Hs Hdone].
  exists f, (Some (b_dfa (f_d f)), None). split; [by destruct fuel|].
  split; [done|]. right. split; [done|]. split; [done|]. split; [done|].
  intros i Hi. destruct (Hwork i Hi) as [?|[Hin|?]]; [done| |done].
  rewrite Hdone in Hin by done. by apply elem_of_nil in Hin.
Qed.

Lemma OInv_FInv p sv f : OInv p (Some sv) f → FInv p sv 0 f.
Proof.
  intros [HI Hcur Hnext Hlim Hstart Hseen Hstack Hwork Hs Hdone].
  assert (Hsv : sv < length (states (b_dfa (f_d f)))) by (by apply Hs).
  destruct (lookup_lt_is_Some_2 _ _ Hsv) as [st Hst].
  split; try done.
  - intros i Hi. destruct (Hwork i Hi) as [[= ->]|[?|?]]; auto.
  - exists st. split; [done|]. intros b' Hb'. lia.
Qed.

Lemma FInv_pop p s f sts s' :
  FInv p s 256 f → Pop (f_states f) = (sts, s') →
  OInv p s' (Frame (f_d f) (f_cur f) (f_next f) sts (f_seen f)) ∧
  length sts + match s' with Some _ => 1 | None => 0 end = length (f_states f).
Proof.
  intros [HI Hcur Hnext Hlim Hstart Hseen Hstack Hwork Hfill].
  destruct (f_states f) as [|o l _] eqn:Estack using rev_ind.
  - rewrite Pop_nil. intros [= <- <-]. split; [|done].
    split; simpl; try done.
    intros i Hi. destruct (Hwork i Hi) as [->|[Hin|?]]; auto.
  - rewrite Pop_snoc. intros [= <- <-].
    apply Forall_app in Hstack as [Hl Ho].
    apply Forall_singleton in Ho as (v & -> & Hv).
    split; [|rewrite length_app; simpl; lia].
    split; simpl; try done.
    + intros i Hi.
      destruct (Hwork i Hi) as [->|[[Hin|Hin]%elem_of_app|?]]; auto.
      apply list_elem_of_singleton in Hin as [= ->]. by left.
    + by intros ? [= <-].
Qed.

Lemma state_loop_ok p (Hwf : wf_prog p) fuel : ∀ s f,
  OInv p s f →
  StateLimit - size (f_seen f) + length (f_states f)
    + match s with Some _ => 1 | None => 0 end ≤ fuel →
  ∃ f' r, state_loop fuel s f = Ok (f', r) ∧ build_post p f' r.
Proof.
  induction fuel as [|fuel IH]; intros s f HO Hfuel;
    (destruct s as [sv|]; [|by apply state_loop_None]); [lia|].
  destruct (byte_loop_ok p Hwf sv 256 0 f) as (r & Er & Hr);
    [by apply OInv_FInv|done|].
  rewrite state_loop_S, Er, bind_Ok. destruct r as [f'|f'].
  { destruct Hr as [HI' Hover]. eexists _, _. split; [done|].
    split; [done|]. by left. }
  destruct Hr as [HF (k & Hk1 & Hk2)].
  pose proof (size_bounded _ _ (finv_seen _ _ _ _ HF)) as Hsize.
  pose proof (finv_limit _ _ _ _ HF) as Hlim.
  destruct (Pop (f_states f')) as [sts s'] eqn:EP.
  destruct (FInv_pop p sv f' sts s' HF EP) as [HO' Hlen].
  apply IH; [done|]. simpl. lia.
Qed.

Lemma StateLimit_pos : 1 ≤ StateLimit.
Proof. unfold StateLimit. lia. Qed.

Lemma build_init_ok p :
  0 < length p → targets_ok p →
  ∃ s f, build_init (newDfaBuilder p) = Ok (s, f) ∧ OInv p s f ∧
         f_states f = [] ∧ f_seen f = ∅ ∧
         entry_ok (f_d f) (start_sig p) s ∧
         grown (newDfaBuilder p) (f_d f) (start_sig p) s.
Proof.
  intros Hpos Ht. unfold build_init. simpl.
  destruct (add_ok (Dfa p []) Ht (newSparseSet (length p)) 0)
    as (added & E & Hnd & Hreach & _); [apply set_ok_new|done|].
  pose proof (add_set_ok (Dfa p []) Ht _ _ _ (set_ok_new _) Hpos E) as Hok.
  assert (Hstart : start_sig p = sig_of p added).
  { unfold start_sig. by rewrite E. }
  rewrite E. simpl in *.
  destruct (cachedState_ok p (newDfaBuilder p) _ (BInv_new p) Hok)
    as (d0 & s0 & E0 & HI0 & Hen & Hgr).
  { simpl. rewrite <- Hstart. apply reach_start. }
  simpl in Hen, Hgr. rewrite <- Hstart in Hen, Hgr.
  rewrite E0. simpl.
  eexists _, _. split; [done|]. simpl.
  assert (Hs0 : ∀ v, s0 = Some v → v < length (states (b_dfa d0))).
  { intros v ->. destruct Hen as [_ Hv]. rewrite <- sigs_length.
    by eapply lookup_lt_Some. }
  split; [|done]. split; simpl; try done.
  - destruct Hgr as [->|(m & -> & _)]; simpl; pose proof StateLimit_pos; lia.
  - intros Hne. destruct s0 as [v|]; [|done]. destruct Hen as [_ Hv].
    destruct Hgr as [->|(m & Hst & [= ->])]; [done|]. done.
  - intros i Hi. left.
    destruct Hgr as [->|(m & Hst & ->)]; [simpl in Hi; lia|].
    rewrite Hst in Hi. simpl in *. f_equal. lia.
Qed.

Lemma build_frame_ok p :
  wf_prog p →
  ∃ f r, build_frame (newDfaBuilder p) = Ok (f, r) ∧ build_post p f r.
Proof.
  intros Hwf. pose proof Hwf as (Hpos & Ht & _).
  destruct (build_init_ok p Hpos Ht) as (s & f & E & HO & Hst & Hse & _).
  unfold build_frame. rewrite E, bind_Ok.
  apply state_loop_ok; [done..|].
  rewrite Hst, Hse, size_empty. destruct s; cbn [length]; lia.
Qed.

(** ** The invariant of the states *)

Lemma KInv_new p : KInv p (newDfaBuilder p).
Proof.
  split; [done|]. split.
  - intros i st Hi. simpl in Hi. by rewrite lookup_nil in Hi.
  - intros k v Hk. simpl in Hk. by rewrite lookup_empty in Hk.
Qed.

Lemma cached_loop_sig p ips : ∀ acc m sig m',
  cached_loop p ips acc m = Ok (sig, m') →
  Forall (λ ip, ∃ x, p !! ip = Some x ∧ (op x = OpRange ∨ op x = OpMatch))
         acc →
  Forall (λ ip, ∃ x, p !! ip = Some x ∧ (op x = OpRange ∨ op x = OpMatch))
         sig.
Proof.
  induction ips as [|ip ips IH]; intros acc m sig m' E Hacc; simpl in E.
  { by injection E as <- _. }
  apply bind_is_Ok in E as (x & Hx%index_is_Ok & E).
  assert (Hpush : op x = OpRange ∨ op x = OpMatch →
    Forall (λ ip, ∃ x, p !! ip = Some x ∧ (op x = OpRange ∨ op x = OpMatch))
           (acc ++ [ip])).
  { intros Hop. apply Forall_app. split; [done|].
    apply Forall_singleton. eauto. }
  destruct (op x) eqn:Hop; eapply IH; eauto.
Qed.

Lemma cachedState_KInv p d set d' r :
  KInv p d → cachedState d set = Ok (d', r) →
  KInv p d' ∧
  (∀ v, r = Some v → v < length (states (b_dfa d'))) ∧
  length (states (b_dfa d)) ≤ length (states (b_dfa d')) ∧
  (∀ i st, states (b_dfa d) !! i = Some st →
           states (b_dfa d') !! i = Some st).
Proof.
  intros (Hp & Hst & Hc) E. unfold cachedState in E.
  apply bind_is_Ok in E as ([sig m] & Hloop & E).
  rewrite Hp in Hloop.
  apply cached_loop_sig in Hloop; [|apply Forall_nil_2].
  destruct (decide (length sig = 0)).
  { injection E as <- <-. split; [done|]. split; [done|]. by split. }
  destruct (cache d !! Sprintf_v sig) as [v|] eqn:Ec.
  { injection E as <- <-. split; [done|]. split; [|by split].
    intros ? [= <-]. by eapply Hc. }
  assert (Hd : d' = DfaBuilder
    (Dfa (insts (b_dfa d))
         (states (b_dfa d) ++ [State sig (replicate 256 None) m]))
    (<[Sprintf_v sig := length (states (b_dfa d)
                                ++ [State sig (replicate 256 None) m]) - 1]>
       (cache d))) by congruence.
  assert (Hr : r = Some (length (states (b_dfa d)
                                 ++ [State sig (replicate 256 None) m]) - 1))
    by congruence.
  clear E. subst d' r. cbn [b_dfa states insts cache].
  rewrite !length_app. cbn [length].
  split; [|split; [intros ? [= <-]; lia|split; [lia|]]].
  - split; [done|]. split; cbn [b_dfa states cache].
    + intros i st [Hi|[_ Hi]]%lookup_app_Some.
      * destruct (Hst i st Hi) as [Hs Hn]. split; [done|].
        intros b t Ht. specialize (Hn b t Ht). rewrite length_app. lia.
      * apply list_lookup_singleton_Some in Hi as [_ <-].
        split; [done|]. intros b t Ht.
        cbn [st_next] in Ht. by apply lookup_replicate in Ht as [? _].
    + intros k v.
      destruct (decide (Sprintf_v sig = k)) as [<-|Hk].
      * rewrite lookup_insert_eq. intros [= <-]. rewrite !length_app.
        cbn [length]. lia.
      * rewrite lookup_insert_ne by done. intros Hv.
        specialize (Hc k v Hv). rewrite length_app. lia.
  - intros i st Hi. by apply lookup_app_l_Some.
Qed.

Lemma runState_KInv p d cur next s b d' cur' next' ns :
  KInv p d → runState d cur next s b = Ok (d', cur', next', ns) →
  KInv p d'.
Proof.
  intros HK E. unfold runState in E.
  apply bind_is_Ok in E as (st & Hs%index_is_Ok & E).
  apply bind_is_Ok in E as (cur1 & _ & E).
  apply bind_is_Ok in E as ([next1 m] & _ & E).
  apply bind_is_Ok in E as ([d1 r] & Hcs & E).
  apply bind_is_Ok in E as (st1 & Hs1%index_is_Ok & E).
  apply bind_is_Ok in E as (st2 & Hset & E).
  injection E as <- _ _ <-.
  destruct (cachedState_KInv p d next1 d1 r HK Hcs)
    as ((Hp & Hst & Hc) & Hr & _ & _).
  unfold set_next in Hset. case_decide as Hb; [|done]. injection Hset as <-.
  split; [done|]. cbn [b_dfa states cache].
  split; [|by rewrite length_insert].
  intros i st'. destruct (decide (i = s)) as [->|Hi].
  - rewrite list_lookup_insert_eq by (by eapply lookup_lt_Some).
    intros [= <-]. cbn [st_insts st_next]. destruct (Hst s st1 Hs1) as [Hsig Hn].
    split; [done|]. intros b' t. rewrite length_insert.
    destruct (decide (b' = b)) as [->|Hb'].
    + rewrite list_lookup_insert_eq by done. intros [= ->]. by apply Hr.
    + rewrite list_lookup_insert_ne by done. apply Hn.
  - rewrite list_lookup_insert_ne by done. intros Hi'.
    destruct (Hst i st' Hi') as [Hsig Hn]. split; [done|].
    intros b' t Ht. rewrite length_insert. by eapply Hn.
Qed.

Lemma byte_loop_KInv p s n : ∀ b f r,
  KInv p (f_d f) → byte_loop n b s f = Ok r → KInv p (f_d (frame_of r)).
Proof.
  induction n as [|n IH]; intros b f r HK E.
  { simpl in E. by injection E as <-. }
  simpl in E.
  apply bind_is_Ok in E as ([[[d cur] next] ns] & Hrun & E).
  apply runState_KInv with (p := p) in Hrun; [|done].
  destruct (match ns with
            | Some v =>
              if bool_decide (v ∈ f_seen f) then (f_states f, f_seen f)
              else (Push (f_states f) ns, {[v]} ∪ f_seen f)
            | None => (f_states f, f_seen f)
            end) as [sts seen].
  destruct (decide (StateLimit < length (states (b_dfa d)))).
  - injection E as <-. exact Hrun.
  - eapply IH; [|exact E]. exact Hrun.
Qed.

Lemma state_loop_KInv p fuel : ∀ s f f' r,
  KInv p (f_d f) → state_loop fuel s f = Ok (f', r) →
  KInv p (f_d f') ∧ ∀ d e, r = (Some d, e) → d = b_dfa (f_d f').
Proof.
  induction fuel as [|fuel IH]; intros [sv|] f f' r HK E.
  - done.
  - simpl in E. injection E as <- <-. split; [done|]. by intros d e [= <- _].
  - rewrite state_loop_S in E.
    apply bind_is_Ok in E as (r1 & Hb & E).
    apply byte_loop_KInv with (p := p) in Hb; [|done].
    destruct r1 as [f1|f1]; [by injection E as <- <-|].
    destruct (Pop (f_states f1)) as [sts s'].
    eapply IH; [|exact E]. exact Hb.
  - simpl in E. injection E as <- <-. split; [done|]. by intros d e [= <- _].
Qed.

Lemma build_init_KInv p s f :
  build_init (newDfaBuilder p) = Ok (s, f) → KInv p (f_d f).
Proof.
  unfold build_init. intros E.
  apply bind_is_Ok in E as (cur & _ & E).
  apply bind_is_Ok in E as ([d s0] & Hcs & E).
  apply cachedState_KInv with (p := p) in Hcs as [HK _]; [|apply KInv_new].
  simpl in E. by injection E as _ <-.
Qed.

Lemma at_byte_KInv p s b f : at_byte p s b f → KInv p (f_d f).
Proof.
  induction 1 as [s f E|s b f f' _ IH Hb E|s f sts s' _ IH EP].
  - by eapply build_init_KInv.
  - by apply (byte_loop_KInv p s 1 b f (inr f')).
  - done.
Qed.

(** ** The bounds of the model's recursion are never reached

    This holds for every program: an ill-formed one can panic, but the
    model never stops short of what the Go code does. *)

Lemma add_fuel_total p fuel : ∀ set ip,
  set_ok (cap set) set → cap set - length (dense set) < fuel →
  add_fuel fuel p set ip ≠ OutOfFuel ∧
  ∀ r, add_fuel fuel p set ip = Ok r →
       set_ok (cap set) r ∧ length (dense set) ≤ length (dense r).
Proof.
  induction fuel as [|fuel IH]; intros set ip Hok Hfuel; [lia|].
  simpl. unfold Contains. destruct (decide (ip < cap set)) as [Hip|];
    [|by split].
  simpl. case_bool_decide as Hin.
  { split; [done|]. by intros r [= <-]. }
  rewrite (Add_fresh (cap set)) by done. simpl.
  unfold index. destruct (p !! ip) as [i|]; [|by split]. simpl.
  pose proof (set_ok_fresh _ _ _ Hok Hip Hin) as Hok'.
  pose proof (set_ok_length _ _ Hok') as Hlen'. simpl in Hlen'.
  rewrite length_app in Hlen'. simpl in Hlen'.
  set (set' := SparseSet (cap set) (dense set ++ [ip])) in *.
  assert (Hfuel' : cap set' - length (dense set') < fuel).
  { simpl. rewrite length_app. simpl. lia. }
  assert (Hgrow : length (dense set) ≤ length (dense set')).
  { simpl. rewrite length_app. lia. }
  destruct (op i).
  - split; [done|]. by intros r [= <-].
  - destruct (IH set' (to i) Hok' Hfuel') as [Hne Hr]. split; [done|].
    intros r E. destruct (Hr r E). split; [done|lia].
  - destruct (IH set' (splitA i) Hok' Hfuel') as [Hne1 Hr1].
    destruct (add_fuel fuel p set' (splitA i)) as [r1| |];
      [|by split|done]. simpl.
    destruct (Hr1 r1 eq_refl) as [Hok1 Hlen1].
    assert (Hcap1 : cap r1 = cap set) by (by destruct Hok1).
    destruct (IH r1 (splitB i)) as [Hne2 Hr2].
    { by rewrite Hcap1. }
    { rewrite Hcap1. simpl in *. lia. }
    split; [done|]. intros r E. destruct (Hr2 r E) as [Hok2 Hlen2].
    rewrite Hcap1 in Hok2. split; [done|lia].
  - split; [done|]. by intros r [= <-].
Qed.

Lemma add_total d set ip :
  set_ok (cap set) set →
  add d set ip ≠ OutOfFuel ∧
  ∀ r, add d set ip = Ok r → set_ok (cap set) r.
Proof.
  intros Hok. destruct (add_fuel_total (insts d) (S (cap set)) set ip Hok)
    as [Hne Hr]; [lia|].
  split; [done|]. intros r E. by destruct (Hr r E).
Qed.

Lemma run_loop_total d b ips : ∀ to_ m,
  set_ok (cap to_) to_ → run_loop d ips b to_ m ≠ OutOfFuel.
Proof.
  induction ips as [|ip ips IH]; intros to_ m Hok; [done|]. simpl.
  unfold index. destruct (insts d !! ip) as [i|]; [|done]. simpl.
  destruct (op i); try by apply IH.
  destruct (in_range i b); [|by apply IH].
  destruct (add_total d to_ (ip + 1) Hok) as [Hne Hr].
  destruct (add d to_ (ip + 1)) as [to'| |]; [|done..]. simpl.
  specialize (Hr to' eq_refl). apply IH.
  by replace (cap to') with (cap to_) by (by destruct Hr).
Qed.

Lemma add_all_total ips : ∀ set, add_all set ips ≠ OutOfFuel.
Proof.
  induction ips as [|ip ips IH]; intros set; [done|]. simpl.
  unfold Add. destruct (decide (ip < cap set)); [|done]. simpl. apply IH.
Qed.

Lemma cached_loop_total p ips : ∀ acc m, cached_loop p ips acc m ≠ OutOfFuel.
Proof.
  induction ips as [|ip ips IH]; intros acc m; [done|]. simpl.
  unfold index. destruct (p !! ip) as [i|]; [|done]. simpl.
  destruct (op i); apply IH.
Qed.

Lemma runState_total d cur next s b :
  runState d cur next s b ≠ OutOfFuel.
Proof.
  unfold runState, index.
  destruct (states (b_dfa d) !! s) as [st|]; [|done]. simpl.
  pose proof (add_all_total (st_insts st) (Clear cur)) as Ha.
  destruct (add_all (Clear cur) (st_insts st)) as [cur1| |]; [|done..]. simpl.
  pose proof (run_loop_total (b_dfa d) b (dense cur1) (Clear next) false) as Hr.
  unfold run.
  destruct (run_loop (b_dfa d) (dense cur1) b (Clear next) false)
    as [[next1 m]| |]; [|done|].
  2:{ exfalso. apply Hr; [|done]. by apply set_ok_Clear. }
  simpl. unfold cachedState.
  pose proof (cached_loop_total (insts (b_dfa d)) (dense next1) [] false) as Hc.
  destruct (cached_loop (insts (b_dfa d)) (dense next1) [] false)
    as [[sig m']| |]; [|done..]. simpl.
  assert (Hfin : ∀ d1 r,
    ((st1 ← match states (b_dfa d1) !! s with
            | Some x => Ok x
            | None => Panic
            end;
      st2 ← set_next st1 b r;
      Ok (DfaBuilder (Dfa (insts (b_dfa d1)) (<[s := st2]> (states (b_dfa d1))))
                     (cache d1), cur1, next1, r))
     : result (dfaBuilder * sparseSet * sparseSet * option nat)) ≠ OutOfFuel).
  { intros d1 r. destruct (states (b_dfa d1) !! s) as [st1|]; [|done]. simpl.
    unfold set_next. by destruct (decide (b < length (st_next st1))). }
  destruct (decide (length sig = 0)); [apply Hfin|].
  destruct (cache d !! Sprintf_v sig); apply Hfin.
Qed.

Lemma runState_bound p d cur next s b d' cur' next' ns :
  KInv p d → runState d cur next s b = Ok (d', cur', next', ns) →
  length (states (b_dfa d)) ≤ length (states (b_dfa d')) ∧
  ∀ v, ns = Some v → v < length (states (b_dfa d')).
Proof.
  intros HK E. unfold runState in E.
  apply bind_is_Ok in E as (st & Hs%index_is_Ok & E).
  apply bind_is_Ok in E as (cur1 & _ & E).
  apply bind_is_Ok in E as ([next1 m] & _ & E).
  apply bind_is_Ok in E as ([d1 r] & Hcs & E).
  apply bind_is_Ok in E as (st1 & Hs1%index_is_Ok & E).
  apply bind_is_Ok in E as (st2 & Hset & E).
  injection E as <- _ _ <-.
  destruct (cachedState_KInv p d next1 d1 r HK Hcs) as (_ & Hr & Hle & _).
  cbn [b_dfa states]. by rewrite length_insert.
Qed.

Lemma byte_loop_total p s n : ∀ b f,
  GInv p f →
  byte_loop n b s f ≠ OutOfFuel ∧
  ∀ f', byte_loop n b s f = Ok (inr f') →
    GInv p f' ∧
    ∃ k, length (f_states f') = length (f_states f) + k ∧
         size (f_seen f') = size (f_seen f) + k.
Proof.
  induction n as [|n IH]; intros b f HG.
  { split; [done|]. intros f' [= <-]. split; [done|]. exists 0. lia. }
  destruct HG as (HK & Hseen & Hlim). simpl.
  pose proof (runState_total (f_d f) (f_cur f) (f_next f) s b) as Hne.
  destruct (runState (f_d f) (f_cur f) (f_next f) s b)
    as [[[[d cur] next] ns]| |] eqn:E; [|done..]. simpl.
  pose proof (runState_KInv p _ _ _ _ _ _ _ _ _ HK E) as HK'.
  destruct (runState_bound p _ _ _ _ _ _ _ _ _ HK E) as [Hle Hns].
  set (pushed := match ns with
                 | Some v => negb (bool_decide (v ∈ f_seen f))
                 | None => false
                 end).
  set (sts' := if pushed then Push (f_states f) ns else f_states f).
  set (seen' := match ns with
                | Some v => if pushed then {[v]} ∪ f_seen f else f_seen f
                | None => f_seen f
                end).
  assert (Hpair : match ns with
      | Some v =>
        if bool_decide (v ∈ f_seen f) then (f_states f, f_seen f)
        else (Push (f_states f) ns, {[v]} ∪ f_seen f)
      | None => (f_states f, f_seen f)
      end = (sts', seen')).
  { unfold sts', seen', pushed. destruct ns as [v|]; [|done].
    by destruct (bool_decide (v ∈ f_seen f)). }
  rewrite Hpair.
  destruct (decide (StateLimit < length (states (b_dfa d)))); [done|].
  assert (Hk : ∃ k, length sts' = length (f_states f) + k ∧
                    size seen' = size (f_seen f) + k).
  { unfold sts', seen', pushed. destruct ns as [v|]; [|exists 0; lia].
    case_bool_decide as Hv; simpl; [exists 0; lia|]. exists 1.
    unfold Push. rewrite length_app. simpl. split; [done|].
    rewrite size_union by (by apply disjoint_singleton_l).
    rewrite size_singleton. lia. }
  destruct (IH (S b) (Frame d cur next sts' seen')) as [Hne' Hr].
  { split; [done|]. split; [|simpl; lia]. simpl.
    intros v. unfold seen', pushed. destruct ns as [w|].
    - case_bool_decide as Hw; simpl.
      + intros Hv. specialize (Hseen v Hv). lia.
      + intros [->%elem_of_singleton|Hv]%elem_of_union; [by apply Hns|].
        specialize (Hseen v Hv). lia.
    - intros Hv. specialize (Hseen v Hv). lia. }
  split; [done|]. intros f' E'. destruct (Hr f' E') as [HG' (k' & Hk1 & Hk2)].
  split; [done|]. destruct Hk as (k & Hk3 & Hk4). simpl in *.
  exists (k + k'). lia.
Qed.

Lemma Pop_length (l : list (option nat)) sts v :
  Pop l = (sts, Some v) → length l = S (length sts).
Proof.
  destruct l as [|o l _] using rev_ind; [done|].
  rewrite Pop_snoc. intros [= <- _]. rewrite length_app. simpl. lia.
Qed.

Lemma state_loop_total p fuel : ∀ s f,
  GInv p f →
  StateLimit - size (f_seen f) + length (f_states f)
    + match s with Some _ => 1 | None => 0 end ≤ fuel →
  state_loop fuel s f ≠ OutOfFuel.
Proof.
  induction fuel as [|fuel IH]; intros [sv|] f HG Hfuel; try done; [lia|].
  rewrite state_loop_S.
  destruct (byte_loop_total p sv 256 0 f HG) as [Hne Hr].
  destruct (byte_loop 256 0 sv f) as [[f1|f1]| |]; [done| |done..]. simpl.
  destruct (Hr f1 eq_refl) as [HG1 (k & Hk1 & Hk2)].
  pose proof HG1 as (_ & Hseen1 & Hlim1).
  pose proof (size_bounded _ _ Hseen1) as Hsize.
  destruct (Pop (f_states f1)) as [sts [s'|]] eqn:EP.
  - apply Pop_length in EP. apply IH; [done|]. simpl. lia.
  - by destruct fuel.
Qed.

Lemma build_init_total p :
  build_init (newDfaBuilder p) ≠ OutOfFuel ∧
  ∀ s f, build_init (newDfaBuilder p) = Ok (s, f) →
         GInv p f ∧ f_states f = [] ∧ f_seen f = ∅.
Proof.
  unfold build_init.
  destruct (add_total (Dfa p []) (newSparseSet (length p)) 0) as [Hne _];
    [apply set_ok_new|].
  cbn [b_dfa newDfaBuilder insts].
  destruct (add (Dfa p []) (newSparseSet (length p)) 0) as [cur| |];
    [|by split|done]. simpl.
  destruct (cachedState (newDfaBuilder p) cur) as [[d s0]| |] eqn:Ec;
    [|by split|].
  2:{ exfalso. unfold cachedState in Ec.
      pose proof (cached_loop_total (insts (b_dfa (newDfaBuilder p)))
                    (dense cur) [] false) as Hc.
      destruct (cached_loop (insts (b_dfa (newDfaBuilder p))) (dense cur)
                            [] false) as [[sig m]| |]; [|done..].
      simpl in Ec. destruct (decide (length sig = 0)); [done|].
      by destruct (cache (newDfaBuilder p) !! Sprintf_v sig). }
  simpl. split; [done|]. intros s f [= <- <-]. simpl. split; [|done].
  destruct (cachedState_KInv p _ _ _ _ (KInv_new p) Ec) as (HK & _ & _ & _).
  split; [done|]. split.
  { intros v Hv. by apply not_elem_of_empty in Hv. }
  unfold cachedState in Ec.
  destruct (cached_loop (insts (b_dfa (newDfaBuilder p))) (dense cur)
                        [] false) as [[sig m]| |]; [|done..].
  pose proof StateLimit_pos.
  cbn [mbind result_bind] in Ec.
  destruct (decide (length sig = 0)).
  { injection Ec as <- _. simpl. lia. }
  cbn [newDfaBuilder cache] in Ec. rewrite lookup_empty in Ec.
  assert (Hd : b_dfa d = Dfa p ([] ++ [State sig (replicate 256 None) m]))
    by (injection Ec as <- _; reflexivity).
  cbn [f_d]. rewrite Hd. cbn [states app length]. lia.
Qed.

(** For every program [build] returns or panics. *)
Lemma build_total p : build (newDfaBuilder p) ≠ OutOfFuel.
Proof.
  unfold build, build_frame.
  destruct (build_init_total p) as [Hne Hr].
  destruct (build_init (newDfaBuilder p)) as [[s f]| |]; [|done..].
  destruct (Hr s f eq_refl) as (HG & Hst & Hse).
  rewrite bind_Ok.
  pose proof (state_loop_total p (S StateLimit) s f HG) as Ht.
  destruct (state_loop (S StateLimit) s f) as [[f' r]| |]; [done..|].
  exfalso. apply Ht; [|done]. rewrite Hst, Hse, size_empty.
  destruct s; cbn [length]; lia.
Qed.

Lemma byte_loop_inl s n : ∀ b f f',
  byte_loop n b s f = Ok (inl f') →
  StateLimit < length (states (b_dfa (f_d f'))).
Proof.
  induction n as [|n IH]; intros b f f' E; [done|].
  simpl in E.
  apply bind_is_Ok in E as ([[[d cur] next] ns] & _ & E).
  destruct (match ns with
            | Some v =>
              if bool_decide (v ∈ f_seen f) then (f_states f, f_seen f)
              else (Push (f_states f) ns, {[v]} ∪ f_seen f)
            | None => (f_states f, f_seen f)
            end) as [sts seen].
  destruct (decide (StateLimit < length (states (b_dfa d)))).
  - by injection E as <-.
  - by eapply IH.
Qed.

(** Whatever the program, when the loop returns it returns the error with
    more states than the limit, or the DFA of the builder with no more. *)
Lemma state_loop_result p fuel : ∀ s f f' r,
  GInv p f → state_loop fuel s f = Ok (f', r) →
  (r = (None, Some ErrTooManyStates) ∧
   StateLimit < length (states (b_dfa (f_d f')))) ∨
  (r = (Some (b_dfa (f_d f')), None) ∧
   length (states (b_dfa (f_d f'))) ≤ StateLimit).
Proof.
  induction fuel as [|fuel IH]; intros [sv|] f f' r HG E.
  - done.
  - simpl in E. injection E as <- <-. right. by destruct HG as (_ & _ & ?).
  - rewrite state_loop_S in E.
    apply bind_is_Ok in E as (r1 & Hb & E).
    destruct r1 as [f1|f1].
    + injection E as <- <-. left. split; [done|]. by eapply byte_loop_inl.
    + destruct (byte_loop_total p sv 256 0 f HG) as [_ Hr].
      destruct (Hr f1 Hb) as [HG1 _].
      destruct (Pop (f_states f1)) as [sts s'].
      eapply IH; [|exact E]. exact HG1.
  - simpl in E. injection E as <- <-. right. by destruct HG as (_ & _ & ?).
Qed.

Lemma build_frame_result p f r :
  build_frame (newDfaBuilder p) = Ok (f, r) →
  (r = (None, Some ErrTooManyStates) ∧
   StateLimit < length (states (b_dfa (f_d f)))) ∨
  (r = (Some (b_dfa (f_d f)), None) ∧
   length (states (b_dfa (f_d f))) ≤ StateLimit).
Proof.
  unfold build_frame. intros E.
  apply bind_is_Ok in E as ([s f0] & E0 & E).
  destruct (build_init_total p) as [_ H0].
  destruct (H0 s f0 E0) as (HG & _).
  by eapply state_loop_result.
Qed.

(** ** The claims on [build] *)

Lemma build_of_frame d f r : build_frame d = Ok (f, r) → build d = Ok r.
Proof. unfold build. by intros ->. Qed.

Lemma build_frame_of d r : build d = Ok r → ∃ f, build_frame d = Ok (f, r).
Proof.
  unfold build. destruct (build_frame d) as [[f r']| |]; [|done..].
  simpl. intros [= ->]. eauto.
Qed.

Lemma sigs_NoDup p d : BInv p d → NoDup (sigs d).
Proof.
  intros HI. apply NoDup_alt. intros i j sig. by apply (BInv_inj p d).
Qed.

(** Once every state is fully processed the states hold every signature
    that can be reached. *)
Lemma reachable_complete p d :
  (start_sig p ≠ [] → sigs d !! 0 = Some (start_sig p)) →
  (∀ i, i < length (states (b_dfa d)) → closed p d i) →
  ∀ sig, reachable_sig p sig → sig ∈ sigs d.
Proof.
  intros Hstart Hclosed sig Hr.
  induction Hr as [Hne|sig b _ IH Hb Hne].
  - eapply list_elem_of_lookup_2. by apply Hstart.
  - apply list_elem_of_lookup in IH as [i Hi].
    assert (Hlt : i < length (states (b_dfa d))).
    { rewrite <- sigs_length. by eapply lookup_lt_Some. }
    destruct (Hclosed i Hlt) as (st & Hst & Hf).
    rewrite (sigs_lookup d i st Hst) in Hi. injection Hi as <-.
    destruct (Hf b Hb) as ([t|] & _ & He); [|done].
    destruct He as [_ Ht]. by eapply list_elem_of_lookup_2.
Qed.

(** ** What [cachedState] computes *)

Lemma cached_loop_inv p ips : ∀ acc m sig m',
  cached_loop p ips acc m = Ok (sig, m') →
  sig = acc ++ sig_of p ips ∧ m' = m || has_match p ips.
Proof.
  induction ips as [|ip ips IH]; intros acc m sig m' E.
  { simpl in E. injection E as <- <-. by rewrite app_nil_r, orb_false_r. }
  assert (Hlt : ip < length p).
  { simpl in E. apply bind_is_Ok in E as (x & Hx%index_is_Ok & _).
    by eapply lookup_lt_Some. }
  simpl in E. apply bind_is_Ok in E as (x & Hx%index_is_Ok & E).
  assert (Hs : significant p ip =
               match op x with OpRange | OpMatch => true | _ => false end).
  { unfold significant. by rewrite Hx. }
  assert (Hm : matching p ip =
               match op x with OpMatch => true | _ => false end).
  { unfold matching. by rewrite Hx. }
  unfold sig_of, has_match. cbn [existsb]. rewrite Hm.
  destruct (op x); apply IH in E as [-> ->]; unfold sig_of, has_match.
  - rewrite filter_cons_True by (by rewrite Hs).
    rewrite <- app_assoc. simpl. by rewrite orb_true_r.
  - by rewrite filter_cons_False by (rewrite Hs; exact id).
  - by rewrite filter_cons_False by (rewrite Hs; exact id).
  - rewrite filter_cons_True by (by rewrite Hs). by rewrite <- app_assoc.
Qed.

(** ** What the loops of [build] keep *)

Section loops_keep.
Variable P : dfaBuilder → Prop.
Hypothesis Hcached : ∀ d set d' r,
  P d → cachedState d set = Ok (d', r) → P d'.
Hypothesis Hrun : ∀ d cur next s b d' cur' next' ns,
  P d → runState d cur next s b = Ok (d', cur', next', ns) → P d'.

Lemma byte_loop_keeps s n : ∀ b f r,
  P (f_d f) → byte_loop n b s f = Ok r → P (f_d (frame_of r)).
Proof.
  induction n as [|n IH]; intros b f r HP E.
  { simpl in E. by injection E as <-. }
  simpl in E.
  apply bind_is_Ok in E as ([[[d cur] next] ns] & Hr & E).
  apply Hrun in Hr; [|done].
  destruct (match ns with
            | Some v =>
              if bool_decide (v ∈ f_seen f) then (f_states f, f_seen f)
              else (Push (f_states f) ns, {[v]} ∪ f_seen f)
            | None => (f_states f, f_seen f)
            end) as [sts seen].
  destruct (decide (StateLimit < length (states (b_dfa d)))).
  - injection E as <-. exact Hr.
  - eapply IH; [|exact E]. exact Hr.
Qed.

Lemma state_loop_keeps fuel : ∀ s f f' r,
  P (f_d f) → state_loop fuel s f = Ok (f', r) → P (f_d f').
Proof.
  induction fuel as [|fuel IH]; intros [sv|] f f' r HP E.
  - done.
  - simpl in E. by injection E as <- _.
  - rewrite state_loop_S in E.
    apply bind_is_Ok in E as (r1 & Hb & E).
    apply byte_loop_keeps in Hb; [|done].
    destruct r1 as [f1|f1]; [by injection E as <- _|].
    destruct (Pop (f_states f1)) as [sts s'].
    eapply IH; [|exact E]. exact Hb.
  - simpl in E. by injection E as <- _.
Qed.

Lemma build_frame_keeps d f r :
  P d → build_frame d = Ok (f, r) → P (f_d f).
Proof.
  intros HP E. unfold build_frame in E.
  apply bind_is_Ok in E as ([s f0] & E0 & E).
  eapply state_loop_keeps; [|exact E].
  unfold build_init in E0.
  apply bind_is_Ok in E0 as (cur & _ & E0).
  apply bind_is_Ok in E0 as ([d0 s0] & Hcs & E0).
  apply Hcached in Hcs; [|done].
  simpl in E0. by injection E0 as _ <-.
Qed.
End loops_keep.

Lemma state_loop_dfa fuel : ∀ s f f' d e,
  state_loop fuel s f = Ok (f', (Some d, e)) → d = b_dfa (f_d f').
Proof.
  induction fuel as [|fuel IH]; intros [sv|] f f' d e E.
  - done.
  - simpl in E. by injection E as <- <- _.
  - rewrite state_loop_S in E.
    apply bind_is_Ok in E as (r1 & Hb & E).
    destruct r1 as [f1|f1]; [done|].
    destruct (Pop (f_states f1)) as [sts s']. by eapply IH.
  - simpl in E. by injection E as <- <- _.
Qed.

Lemma build_dfa d dfa0 e :
  build d = Ok (Some dfa0, e) →
  ∃ f, build_frame d = Ok (f, (Some dfa0, e)) ∧ dfa0 = b_dfa (f_d f).
Proof.
  intros [f E]%build_frame_of. exists f. split; [done|].
  unfold build_frame in E. apply bind_is_Ok in E as ([s f0] & _ & E).
  by eapply state_loop_dfa.
Qed.

(** ** The shape of the states, for every program *)

Lemma has_match_sig_of p l : has_match p (sig_of p l) = has_match p l.
Proof.
  unfold has_match, sig_of. induction l as [|ip l IH]; [done|].
  cbn [existsb]. destruct (significant p ip) eqn:Hs.
  - rewrite filter_cons_True by (by rewrite Hs). cbn [existsb]. by rewrite IH.
  - rewrite filter_cons_False by (rewrite Hs; exact id). rewrite IH.
    assert (matching p ip = false) as ->; [|done].
    unfold significant, matching in *. destruct (p !! ip) as [x|]; [|done].
    by destruct (op x).
Qed.

Lemma cachedState_SInv p d set d' r :
  SInv p d → cachedState d set = Ok (d', r) → SInv p d'.
Proof.
  intros [Hp Hsh]. unfold cachedState. intros E.
  destruct (cached_loop (insts (b_dfa d)) (dense set) [] false)
    as [[sig m]| |] eqn:El; [|done..].
  cbn [mbind result_bind] in E.
  destruct (decide (length sig = 0)) as [H0|H0]; [by injection E as <- _|].
  destruct (cache d !! Sprintf_v sig) as [v|]; [by injection E as <- _|].
  assert (Hd : b_dfa d' = Dfa (insts (b_dfa d))
         (states (b_dfa d) ++ [State sig (replicate 256 None) m]))
    by (injection E as <- _; reflexivity).
  clear E. unfold SInv. rewrite Hd. cbn [insts states]. split; [done|].
  intros i st [Hi|[_ Hi]]%lookup_app_Some; [by eapply Hsh|].
  apply list_lookup_singleton_Some in Hi as [_ <-]. cbn [st_next st_insts st_match].
  rewrite Hp in El. apply cached_loop_inv in El as [Hsig Hm].
  simpl in Hsig, Hm. subst sig m.
  split; [apply length_replicate|]. split; [by intros Hnil; rewrite Hnil in H0|].
  by rewrite has_match_sig_of.
Qed.

Lemma runState_SInv p d cur next s b d' cur' next' ns :
  SInv p d → runState d cur next s b = Ok (d', cur', next', ns) → SInv p d'.
Proof.
  intros HS E. unfold runState in E.
  apply bind_is_Ok in E as (st & Hs%index_is_Ok & E).
  apply bind_is_Ok in E as (cur1 & _ & E).
  apply bind_is_Ok in E as ([next1 m] & _ & E).
  apply bind_is_Ok in E as ([d1 r] & Hcs & E).
  apply bind_is_Ok in E as (st1 & Hs1%index_is_Ok & E).
  apply bind_is_Ok in E as (st2 & Hset & E).
  injection E as <- _ _ _.
  destruct (cachedState_SInv p d next1 d1 r HS Hcs) as [Hp Hsh].
  unfold set_next in Hset. case_decide as Hb; [|done]. injection Hset as <-.
  split; [done|]. cbn [b_dfa states]. intros i sti.
  destruct (decide (i = s)) as [->|Hi].
  - rewrite list_lookup_insert_eq by (by eapply lookup_lt_Some).
    intros [= <-]. cbn [st_next st_insts st_match]. rewrite length_insert.
    by apply (Hsh s st1).
  - rewrite list_lookup_insert_ne by done. apply Hsh.
Qed.

Lemma build_SInv p d :
  build (newDfaBuilder p) = Ok (Some d, None) →
  insts d = p ∧ state_shape p (states d).
Proof.
  intros (f & E & ->)%build_dfa.
  apply (build_frame_keeps (SInv p) (cachedState_SInv p) (runState_SInv p)
           (newDfaBuilder p) f (Some (b_dfa (f_d f)), None)); [|done].
  split; [done|]. intros i st Hi. simpl in Hi. by rewrite lookup_nil in Hi.
Qed.

(** ** The members of the signatures *)

Lemma start_sig_members p j :
  0 < length p → targets_ok p →
  j ∈ start_sig p ↔ significant p j ∧ rtc (eps_edge p) 0 j.
Proof.
  intros Hpos Ht. unfold start_sig.
  destruct (add_ok (Dfa p []) Ht (newSparseSet (length p)) 0)
    as (added & E & _); [apply set_ok_new|done|].
  assert (Hcl : eps_closed (insts (Dfa p []))
                           (dense (newSparseSet (length p)))).
  { intros i k Hi. by apply elem_of_nil in Hi. }
  destruct (add_closed (Dfa p []) _ _ _ Ht (set_ok_new _) Hpos Hcl E)
    as (_ & _ & Hmem).
  rewrite E. unfold sig_of. rewrite list_elem_of_filter, Hmem. simpl.
  split.
  - intros [Hs [Hj|Hj]]; [by apply elem_of_nil in Hj|done].
  - intros [Hs Hj]. split; [done|by right].
Qed.

Lemma next_sig_members p sig b j :
  wf_prog p → NoDup sig → Forall (λ ip, ip < length p) sig →
  j ∈ next_sig p sig b ↔
  significant p j ∧
  ∃ ip, ip ∈ sig ∧ covers p b ip ∧ rtc (eps_edge p) (ip + 1) j.
Proof.
  intros (_ & Ht & Hr) Hnd Hlt. unfold next_sig.
  destruct (run_ok (Dfa p []) Ht Hr (SparseSet (length p) sig)
                   (newSparseSet (length p)) b) as (to' & E & _ & Hmem);
    [done..|].
  rewrite E. unfold sig_of. by rewrite list_elem_of_filter, Hmem.
Qed.

(** ** The invariant at the points of a build *)

Lemma at_byte_FInv p s b f : wf_prog p → at_byte p s b f → FInv p s b f.
Proof.
  intros Hwf. induction 1 as [s f E|s b f f' _ IH Hb E|s f sts s' _ IH EP].
  - pose proof Hwf as (Hpos & Ht & _).
    destruct (build_init_ok p Hpos Ht) as (s0 & f0 & E0 & HO & _).
    rewrite E in E0. injection E0 as <- <-. by apply OInv_FInv.
  - destruct (byte_step_ok p Hwf s b f IH Hb) as (r & E' & Hr).
    rewrite E in E'. injection E' as <-. by destruct Hr.
  - apply OInv_FInv. by apply (FInv_pop p s f sts (Some s')).
Qed.

(** C1. Whatever the program, when [build] returns it returns either the
    error [ErrTooManyStates] and no DFA, or the DFA of the builder and no
    error, and it returns the error exactly when the builder holds more
    than [StateLimit] states at the return.  For a well-formed program
    [build] returns, and the states it has found by then hold distinct
    signatures, each of them reachable.  It succeeds when the signatures
    that can be reached fit in a list no longer than the limit, and fails
    when more than the limit of distinct signatures can be reached.  The
    DFA it returns on success is complete: it carries the program; every
    reachable signature is the signature of one of its states, the
    closure of instruction 0 that of state 0; every state has its match
    flag set exactly when its signature holds a [Match], and 256 slots,
    the slot of byte [b] holding reject when the step of the signature on
    [b] is empty and otherwise the index of the state whose signature is
    that step. *)
Theorem build_limit (p : prog) :
  (∀ f r, build_frame (newDfaBuilder p) = Ok (f, r) →
     build (newDfaBuilder p) = Ok r ∧
     (r = (None, Some ErrTooManyStates) ↔
        StateLimit < length (states (b_dfa (f_d f)))) ∧
     (r = (None, Some ErrTooManyStates) ∨
      r = (Some (b_dfa (f_d f)), None))) ∧
  (wf_prog p →
   ∃ f r,
     build_frame (newDfaBuilder p) = Ok (f, r) ∧
     insts (b_dfa (f_d f)) = p ∧
     NoDup (sigs (f_d f)) ∧
     (∀ sig, sig ∈ sigs (f_d f) → reachable_sig p sig) ∧
     (r = (Some (b_dfa (f_d f)), None) →
      (∀ sig, reachable_sig p sig → sig ∈ sigs (f_d f)) ∧
      (start_sig p ≠ [] → sigs (f_d f) !! 0 = Some (start_sig p)) ∧
      (∀ i, i < length (states (b_dfa (f_d f))) → closed p (f_d f) i) ∧
      (∀ i st, states (b_dfa (f_d f)) !! i = Some st →
         length (st_next st) = 256 ∧
         st_match st = has_match p (st_insts st) ∧
         ∀ b, b < 256 →
           (st_next st !! b = Some None ∧
            next_sig p (st_insts st) b = []) ∨
           (∃ t st', st_next st !! b = Some (Some t) ∧
                     states (b_dfa (f_d f)) !! t = Some st' ∧
                     st_insts st' = next_sig p (st_insts st) b ∧
                     st_insts st' ≠ []))) ∧
     (∀ L : list (list nat),
        (∀ sig, reachable_sig p sig → sig ∈ L) → length L ≤ StateLimit →
        r = (Some (b_dfa (f_d f)), None)) ∧
     (∀ L : list (list nat),
        NoDup L → (∀ sig, sig ∈ L → reachable_sig p sig) →
        StateLimit < length L →
        r = (None, Some ErrTooManyStates))).
Proof.
  split.
  { intros f r E. split; [by eapply build_of_frame|].
    destruct (build_frame_result p f r E) as [[-> Hover]|[-> Hle]].
    - split; [done|by left].
    - split; [|by right]. split; [done|lia]. }
  intros Hwf. destruct (build_frame_ok p Hwf) as (f & r & E & HI & Hr).
  exists f, r. split; [done|].
  split; [by apply (binv_insts p)|].
  split; [by eapply sigs_NoDup|].
  split.
  { intros sig [i Hi]%list_elem_of_lookup. by eapply binv_reach. }
  assert (HS : SInv p (f_d f)).
  { apply (build_frame_keeps (SInv p) (cachedState_SInv p) (runState_SInv p)
             (newDfaBuilder p) f r); [|done].
    split; [done|]. intros i st Hi. simpl in Hi. by rewrite lookup_nil in Hi. }
  assert (Hsub : ∀ L : list (list nat),
            (∀ sig, reachable_sig p sig → sig ∈ L) →
            length (states (b_dfa (f_d f))) ≤ length L).
  { intros L HL. rewrite <- sigs_length.
    apply submseteq_length, NoDup_submseteq; [by eapply sigs_NoDup|].
    intros sig [i Hi]%list_elem_of_lookup. apply HL.
    by eapply binv_reach. }
  destruct Hr as [[-> Hover]|(-> & Hle & Hstart & Hclosed)].
  - split; [done|]. split; [|done].
    intros L HL Hlen. specialize (Hsub L HL). lia.
  - split; [|split; [done|]].
    + intros _. split; [by apply reachable_complete|].
      split; [done|]. split; [done|].
      intros i st Hi. destruct HS as [_ Hsh].
      destruct (Hsh i st Hi) as (Hl & _ & Hm).
      split; [done|]. split; [done|]. intros b Hb.
      destruct (Hclosed i (lookup_lt_Some _ _ _ Hi)) as (st0 & Hst0 & Hf).
      assert (st0 = st) as -> by congruence.
      destruct (Hf b Hb) as ([t|] & Ho & He); simpl in He.
      * right. destruct He as [Hne (st' & Hst' & Hsig)%sigs_lookup_inv].
        exists t, st'. rewrite Hsig. done.
      * by left.
    + intros L Hnd HL Hlen. exfalso.
      assert (length L ≤ length (sigs (f_d f)));
        [|rewrite sigs_length in *; lia].
      apply submseteq_length, NoDup_submseteq; [done|].
      intros sig Hsig. eapply reachable_complete; eauto.
Qed.

Lemma grown_prefix d d' sig r : grown d d' sig r → sigs d `prefix_of` sigs d'.
Proof.
  intros [->|(m & Hst & _)]; [done|].
  unfold sigs. rewrite Hst, fmap_app. by apply prefix_app_r.
Qed.

(** What [cachedState] returns, for a set of indices of the program. *)
Lemma cachedState_eq d set :
  Forall (λ ip, ip < length (insts (b_dfa d))) (dense set) →
  cachedState d set =
  if decide (length (sig_of (insts (b_dfa d)) (dense set)) = 0)
  then Ok (d, None)
  else
    match cache d !! Sprintf_v (sig_of (insts (b_dfa d)) (dense set)) with
    | Some v => Ok (d, Some v)
    | None =>
      Ok (DfaBuilder
            (Dfa (insts (b_dfa d))
                 (states (b_dfa d) ++
                  [State (sig_of (insts (b_dfa d)) (dense set))
                         (replicate 256 None)
                         (has_match (insts (b_dfa d)) (dense set))]))
            (<[Sprintf_v (sig_of (insts (b_dfa d)) (dense set))
               := length (states (b_dfa d))]> (cache d)),
          Some (length (states (b_dfa d))))
    end.
Proof.
  intros Hlt. unfold cachedState. rewrite cached_loop_ok by done.
  cbn [mbind result_bind app orb].
  destruct (decide (length (sig_of (insts (b_dfa d)) (dense set)) = 0));
    [done|].
  destruct (cache d !! Sprintf_v (sig_of (insts (b_dfa d)) (dense set)));
    [done|].
  assert (Hlen : ∀ x : state,
            length (states (b_dfa d) ++ [x]) - 1 = length (states (b_dfa d))).
  { intros x. rewrite length_app. simpl. lia. }
  by rewrite Hlen.
Qed.

(** C2. The builder keeps its invariant during a build.  Under it,
    [cachedState] on a set holding a reachable signature returns: nil
    exactly for the empty signature, and otherwise the index of a state
    that holds the signature of the set.  It leaves the builder as it is
    when the signature is empty or is the signature of a state, and
    otherwise appends one state with that signature, 256 reject slots and
    the match flag of the set, stores its index under the key of the
    signature and returns that index.  So two sets handed to
    [cachedState], the second at or after the first, get the same state
    index exactly when their significant indices, in insertion order, are
    the same sequence; the same indices in another order get another
    state.  The build of a well-formed program returns; the states it has
    found hold distinct reachable signatures; it succeeds when the
    reachable signatures fit within the limit, and the states of the DFA
    it returns hold every reachable signature, each once, so that their
    number is the number of the reachable signatures.  The members of the
    signatures are the [Range] and [Match] indices reached through [Jmp]
    and [Split] edges: from instruction 0 for the start, from the
    instruction after a covering [Range] for a step. *)
Theorem cachedState_interns (p : prog) :
  wf_prog p →
  (BInv p (newDfaBuilder p) ∧
   ∀ s b f, at_byte p s b f → BInv p (f_d f)) ∧
  (∀ d set,
     BInv p d → set_ok (length p) set →
     (sig_of p (dense set) ≠ [] → reachable_sig p (sig_of p (dense set))) →
     ∃ d' r,
       cachedState d set = Ok (d', r) ∧ BInv p d' ∧
       (r = None ↔ sig_of p (dense set) = []) ∧
       (∀ i, r = Some i →
          ∃ st, states (b_dfa d') !! i = Some st ∧
                st_insts st = sig_of p (dense set)) ∧
       (sig_of p (dense set) = [] ∨ sig_of p (dense set) ∈ sigs d →
        d' = d) ∧
       (sig_of p (dense set) ≠ [] → sig_of p (dense set) ∉ sigs d →
        r = Some (length (states (b_dfa d))) ∧
        d' = DfaBuilder
               (Dfa p (states (b_dfa d) ++
                       [State (sig_of p (dense set)) (replicate 256 None)
                              (has_match p (dense set))]))
               (<[Sprintf_v (sig_of p (dense set))
                  := length (states (b_dfa d))]> (cache d)))) ∧
  (∀ d1 d1' d2 d2' set1 set2 r1 r2,
     BInv p d1 → BInv p d2 → sigs d1' `prefix_of` sigs d2 →
     set_ok (length p) set1 → set_ok (length p) set2 →
     (sig_of p (dense set1) ≠ [] → reachable_sig p (sig_of p (dense set1))) →
     (sig_of p (dense set2) ≠ [] → reachable_sig p (sig_of p (dense set2))) →
     cachedState d1 set1 = Ok (d1', r1) →
     cachedState d2 set2 = Ok (d2', r2) →
     (r1 = None ↔ sig_of p (dense set1) = []) ∧
     (∀ i1 i2, r1 = Some i1 → r2 = Some i2 →
        (i1 = i2 ↔ sig_of p (dense set1) = sig_of p (dense set2)) ∧
        (sig_of p (dense set1) ≡ₚ sig_of p (dense set2) →
         sig_of p (dense set1) ≠ sig_of p (dense set2) → i1 ≠ i2))) ∧
  (∃ f r,
     build_frame (newDfaBuilder p) = Ok (f, r) ∧
     build (newDfaBuilder p) = Ok r ∧
     NoDup (sigs (f_d f)) ∧
     (∀ sig, sig ∈ sigs (f_d f) → reachable_sig p sig) ∧
     (∀ L : list (list nat),
        (∀ sig, reachable_sig p sig → sig ∈ L) → length L ≤ StateLimit →
        r = (Some (b_dfa (f_d f)), None)) ∧
     (r = (Some (b_dfa (f_d f)), None) →
      (∀ sig, reachable_sig p sig → sig ∈ sigs (f_d f)) ∧
      ∀ L : list (list nat),
        NoDup L → (∀ sig, sig ∈ L ↔ reachable_sig p sig) →
        length (states (b_dfa (f_d f))) = length L)) ∧
  (∀ d, build (newDfaBuilder p) = Ok (Some d, None) →
     NoDup (st_insts <$> states d) ∧
     ∀ sig, sig ∈ st_insts <$> states d ↔ reachable_sig p sig) ∧
  (∀ j, j ∈ start_sig p ↔ significant p j ∧ rtc (eps_edge p) 0 j) ∧
  (∀ sig b j, NoDup sig → Forall (λ ip, ip < length p) sig →
     j ∈ next_sig p sig b ↔
     significant p j ∧
     ∃ ip, ip ∈ sig ∧ covers p b ip ∧ rtc (eps_edge p) (ip + 1) j).
Proof.
  intros Hwf. split; [|split; [|split; [|split; [|split; [|split]]]]].
  - split; [apply BInv_new|].
    intros s b f Hat. by apply (finv_b p s b f), at_byte_FInv.
  - intros d set HI Hok Hreach.
    destruct (cachedState_ok p d set HI Hok Hreach)
      as (d' & r & E & HI' & Hen & _).
    exists d', r. split; [done|]. split; [done|].
    pose proof (binv_insts p d HI) as Hp.
    assert (Hlt : Forall (λ ip, ip < length (insts (b_dfa d))) (dense set)).
    { rewrite Hp. by destruct Hok as (_ & _ & ?). }
    rewrite (cachedState_eq d set Hlt), Hp in E.
    set (sig := sig_of p (dense set)) in *.
    assert (Hhit : ∀ v, cache d !! Sprintf_v sig = Some v ↔
                        sigs d !! v = Some sig).
    { intros v. rewrite (binv_cache p d HI). split.
      - intros (sig' & Hv & Hk). by apply Sprintf_v_inj in Hk as ->.
      - intros Hv. by exists sig. }
    split; [|split; [|split]].
    + destruct r; simpl in Hen; [|done]. by destruct Hen.
    + intros i ->. destruct Hen as [_ Hi]. by apply sigs_lookup_inv.
    + destruct (decide (length sig = 0)) as [H0|H0]; [congruence|].
      destruct (cache d !! Sprintf_v sig) as [v|] eqn:Ec; [congruence|].
      intros [Hnil|[i Hi]%list_elem_of_lookup].
      * by rewrite Hnil in H0.
      * by apply Hhit in Hi.
    + intros Hne Hnot.
      destruct (decide (length sig = 0)) as [H0|H0].
      { by apply length_zero_iff_nil in H0. }
      destruct (cache d !! Sprintf_v sig) as [v|] eqn:Ec.
      { exfalso. apply Hnot. pose proof (proj1 (Hhit v) eq_refl) as Hv.
        by eapply list_elem_of_lookup_2. }
      split; congruence.
  - intros d1 d1' d2 d2' set1 set2 r1 r2 HI1 HI2 Hpre Hok1 Hok2 Hr1 Hr2 E1 E2.
    destruct (cachedState_ok p d1 set1 HI1 Hok1 Hr1)
      as (? & ? & E1' & HI1' & Hen1 & Hgr1).
    rewrite E1 in E1'. injection E1' as <- <-.
    destruct (cachedState_ok p d2 set2 HI2 Hok2 Hr2)
      as (? & ? & E2' & HI2' & Hen2 & Hgr2).
    rewrite E2 in E2'. injection E2' as <- <-.
    apply grown_prefix in Hgr2.
    split.
    { destruct r1; simpl in Hen1; [|done]. by destruct Hen1. }
    intros i1 i2 -> ->. destruct Hen1 as [_ Hi1], Hen2 as [_ Hi2].
    assert (Hi1' : sigs d2' !! i1 = Some (sig_of p (dense set1))).
    { eapply prefix_lookup_Some; [|exact Hgr2].
      by eapply prefix_lookup_Some. }
    assert (Hiff : i1 = i2 ↔ sig_of p (dense set1) = sig_of p (dense set2)).
    { split; [intros ->; congruence|].
      intros Heq. rewrite Heq in Hi1'. by eapply BInv_inj. }
    split; [done|]. intros _ Hne. by rewrite Hiff.
  - destruct (build_frame_ok p Hwf) as (f & r & E & HI & Hr).
    exists f, r. split; [done|]. split; [by eapply build_of_frame|].
    split; [by eapply sigs_NoDup|].
    assert (Hreach : ∀ sig, sig ∈ sigs (f_d f) → reachable_sig p sig).
    { intros sig [i Hi]%list_elem_of_lookup. by eapply binv_reach. }
    split; [done|].
    destruct Hr as [[-> Hover]|(-> & Hle & Hstart & Hclosed)].
    + split; [|done]. intros L HL Hlen. exfalso.
      assert (length (sigs (f_d f)) ≤ length L);
        [|rewrite sigs_length in *; lia].
      apply submseteq_length, NoDup_submseteq; [by eapply sigs_NoDup|].
      intros sig Hsig. by apply HL, Hreach.
    + split; [done|]. intros _.
      split; [by apply reachable_complete|].
      intros L Hnd HL. rewrite <- sigs_length.
      apply Permutation_length, NoDup_Permutation;
        [by eapply sigs_NoDup|done|].
      intros sig. rewrite HL. split; [apply Hreach|].
      by apply reachable_complete.
  - intros d [f E]%build_frame_of.
    destruct (build_frame_ok p Hwf) as (f' & r' & E' & HI & Hr).
    rewrite E in E'. injection E' as <- <-.
    destruct Hr as [[[=] _]|([= ->] & _ & Hstart & Hclosed)].
    split; [by eapply sigs_NoDup|]. intros sig. split.
    + intros [i Hi]%list_elem_of_lookup. by eapply binv_reach.
    + by apply reachable_complete.
  - intros j. destruct Hwf as (Hpos & Ht & _). by apply start_sig_members.
  - intros sig b j Hnd Hlt. by apply next_sig_members.
Qed.

(** C7. In a DFA built from a well-formed program, the slot of a state
    for a byte that no [Range] of the state's signature covers holds the
    reject value. *)
Theorem build_reject (p : prog) (d : dfa) (s : nat) (st : state) (b : nat) :
  wf_prog p →
  build (newDfaBuilder p) = Ok (Some d, None) →
  states d !! s = Some st → b < 256 →
  (∀ ip x, ip ∈ st_insts st → p !! ip = Some x → op x = OpRange →
           ¬ rangeStart x ≤ b ≤ rangeEnd x) →
  st_next st !! b = Some None.
Proof.
  intros Hwf [f E]%build_frame_of Hs Hb Hnone.
  destruct (build_frame_ok p Hwf) as (f' & r' & E' & HI & Hr).
  rewrite E in E'. injection E' as <- <-.
  destruct Hr as [[[=] _]|([= ->] & _)].
  destruct (binv_next p _ HI s st Hs) as [Hlen Hent].
  destruct (lookup_lt_is_Some_2 (st_next st) b) as [[t|] Ho]; [lia| |done].
  destruct (Hent b t Ho) as [_ (ip & Hip & x & Hx & Hop & Hcov)].
  by destruct (Hnone ip x).
Qed.

(** A program of [Jmp] and [Split] instructions only has an empty start
    signature. *)
Lemma start_sig_only_eps p :
  Forall (λ x, op x = OpJmp ∨ op x = OpSplit) p → start_sig p = [].
Proof.
  intros Hall. unfold start_sig.
  destruct (add (Dfa p []) (newSparseSet (length p)) 0) as [cur| |]; [|done..].
  unfold sig_of. induction (dense cur) as [|ip l IH]; [done|].
  rewrite filter_cons_False; [done|].
  unfold significant. destruct (p !! ip) as [x|] eqn:E; [|exact id].
  rewrite Forall_forall in Hall.
  destruct (Hall x (list_elem_of_lookup_2 _ _ _ E)) as [-> | ->]; exact id.
Qed.

(** C9. For a non-empty program with targets in bounds whose closure of
    instruction 0 holds no [Range] and no [Match], [build] returns a DFA
    without states and no error. *)
Theorem build_no_start (p : prog) :
  0 < length p → targets_ok p → start_sig p = [] →
  build (newDfaBuilder p) = Ok (Some (Dfa p []), None).
Proof.
  intros Hpos Ht Hstart.
  destruct (build_init_ok p Hpos Ht) as (s & f & E & _ & _ & _ & Hen & Hgr).
  rewrite Hstart in Hen, Hgr.
  destruct s as [v|]; [by destruct Hen|].
  destruct Hgr as [Hd|(m & _ & [=])].
  unfold build, build_frame. rewrite E. simpl. by rewrite Hd.
Qed.

(** C10. For every program, the invariant of the states (signatures hold
    indices of [Range] and [Match] instructions only, every non-reject
    slot holds an index below the number of states) holds of the builder
    before the build, after the part of [build] before its loop, at every
    head of the byte loop, at the return from inside the loop, and of
    every DFA [build] returns. *)
Theorem build_invariant (p : prog) :
  state_inv p (states (b_dfa (newDfaBuilder p))) ∧
  (∀ s f, build_init (newDfaBuilder p) = Ok (s, f) →
     state_inv p (states (b_dfa (f_d f)))) ∧
  (∀ s b f, at_byte p s b f → state_inv p (states (b_dfa (f_d f)))) ∧
  (∀ s b f f', at_byte p s b f → byte_loop 1 b s f = Ok (inl f') →
     state_inv p (states (b_dfa (f_d f')))) ∧
  (∀ d, build (newDfaBuilder p) = Ok (Some d, None) →
     state_inv p (states d)).
Proof.
  split; [|split; [|split; [|split]]].
  - apply KInv_new.
  - intros s f E. by apply (build_init_KInv p s f).
  - intros s b f Hat. by apply (at_byte_KInv p s b f).
  - intros s b f f' Hat E.
    apply (byte_loop_KInv p s 1 b f (inl f')); [|done].
    by eapply at_byte_KInv.
  - intros d [f E]%build_frame_of. unfold build_frame in E.
    apply bind_is_Ok in E as ([s f0] & E0 & E).
    apply build_init_KInv in E0.
    destruct (state_loop_KInv p _ _ _ _ _ E0 E) as [(_ & H & _) Hd].
    by rewrite (Hd d None eq_refl).
Qed.

Lemma build_prog_a_eq : build (newDfaBuilder prog_a) = Ok (Some dfa_a, None).
Proof. vm_compute. reflexivity. Qed.

(** C8. For the program [Range('a','a'), Match] the build succeeds; the
    start state, whose signature is the closure of instruction 0, steps
    on 'a' (97) to a state whose match flag is set and whose 256 slots all
    hold reject, and on every other byte to reject. *)
Theorem build_prog_a :
  ∃ d st0 st1,
    build (newDfaBuilder prog_a) = Ok (Some d, None) ∧
    states d !! 0 = Some st0 ∧ st_insts st0 = start_sig prog_a ∧
    st_next st0 !! 97 = Some (Some 1) ∧
    states d !! 1 = Some st1 ∧ st_match st1 = true ∧
    length (st_next st1) = 256 ∧
    (∀ b, b < 256 → st_next st1 !! b = Some None) ∧
    (∀ b, b < 256 → b ≠ 97 → st_next st0 !! b = Some None).
Proof.
  exists dfa_a, (State [0] (<[97 := Some 1]> (replicate 256 None)) false),
         (State [1] (replicate 256 None) true).
  split; [exact build_prog_a_eq|].
  split; [done|]. split; [done|]. split; [done|]. split; [done|].
  split; [done|]. split; [done|]. split.
  - intros b Hb. cbn [st_next]. by apply lookup_replicate_2.
  - intros b Hb Hne. cbn [st_next].
    rewrite list_lookup_insert_ne by done. by apply lookup_replicate_2.
Qed.

(** ** The program of [(a)*]: the start state is processed twice *)

Lemma byte_loop_at p s n : ∀ b f r,
  at_byte p s b f → b + n = 256 → byte_loop n b s f = Ok r →
  match r with
  | inr f' => at_byte p s 256 f'
  | inl f' => ∃ b' f1, at_byte p s b' f1 ∧ b' < 256 ∧
                       byte_loop 1 b' s f1 = Ok (inl f')
  end.
Proof.
  induction n as [|n IH]; intros b f r Hat Hbn E.
  { simpl in E. injection E as <-. by replace 256 with b by lia. }
  rewrite byte_loop_S in E.
  destruct (byte_loop 1 b s f) as [[f1|f1]| |] eqn:E1; try done.
  - simpl in E. injection E as <-. exists b, f. split; [done|]. split; [lia|done].
  - simpl in E. apply (IH (S b) f1); [|lia|done].
    apply (at_next p s b f); [done|lia|done].
Qed.

(** The frame [build] returns with is a point of the build: the frame
    past the last byte of a state with nothing left to pop, or the frame
    of the return from inside the byte loop. *)
Lemma state_loop_at p fuel : ∀ s f f' r,
  at_byte p s 0 f → state_loop fuel (Some s) f = Ok (f', r) →
  (∃ s1 f1 sts, at_byte p s1 256 f1 ∧ Pop (f_states f1) = (sts, None) ∧
     f' = Frame (f_d f1) (f_cur f1) (f_next f1) sts (f_seen f1)) ∨
  (∃ s1 b1 f1, at_byte p s1 b1 f1 ∧ b1 < 256 ∧
     byte_loop 1 b1 s1 f1 = Ok (inl f')).
Proof.
  induction fuel as [|fuel IH]; intros s f f' r Hat E; [done|].
  rewrite state_loop_S in E.
  apply bind_is_Ok in E as (r1 & Hb & E).
  pose proof (byte_loop_at p s 256 0 f r1 Hat eq_refl Hb) as H1.
  destruct r1 as [f1|f1].
  { injection E as <- _. right. destruct H1 as (b1 & f0 & ?). eauto. }
  destruct (Pop (f_states f1)) as [sts [s'|]] eqn:EP.
  - eapply IH; [|exact E]. by apply (at_pop p s f1 sts s').
  - left. exists s, f1, sts. split; [done|]. split; [done|].
    destruct fuel; simpl in E; by injection E as <- _.
Qed.

(** C6, on the program [Split(1,3), Range('a','a'), Jmp(0), Match]: the
    build gets past the last byte of the start state, all its slots
    filled, pops the start state again, and stands at the head of the
    byte loop for it a second time. *)
Theorem start_state_reprocessed :
  ∃ f sts,
    at_byte prog_star 0 256 f ∧
    closed prog_star (f_d f) 0 ∧
    Pop (f_states f) = (sts, Some 0) ∧
    at_byte prog_star 0 0
            (Frame (f_d f) (f_cur f) (f_next f) sts (f_seen f)).
Proof.
  assert (Hwf : wf_prog prog_star) by (by apply wf_progb_sound).
  destruct (build_init (newDfaBuilder prog_star)) as [[s f0]| |] eqn:E0;
    try by vm_compute in E0.
  assert (Hs : s = Some 0).
  { vm_compute in E0. by injection E0 as <- _. }
  subst s.
  pose proof (at_init prog_star 0 f0 E0) as Hat0.
  destruct (byte_loop_ok prog_star Hwf 0 256 0 f0) as (r & E & Hr);
    [by apply at_byte_FInv|done|].
  destruct r as [f|f].
  { exfalso. vm_compute in E0. injection E0 as <-. by vm_compute in E. }
  pose proof (byte_loop_at _ _ _ _ _ _ Hat0 eq_refl E) as Hat.
  assert (HP : Pop (f_states f) = ([], Some 0)).
  { vm_compute in E0. injection E0 as <-. vm_compute in E.
    injection E as <-. reflexivity. }
  exists f, []. split; [done|]. split; [by apply (finv_filled _ _ _ _ (proj1 Hr))|].
  split; [done|]. by apply (at_pop prog_star 0 f [] 0).
Qed.

(** ** Instances on the example programs *)

Lemma wf_prog_a : wf_prog prog_a.
Proof. apply wf_progb_sound. reflexivity. Qed.

Lemma wf_prog_alt : wf_prog prog_alt.
Proof. apply wf_progb_sound. reflexivity. Qed.

Lemma wf_prog_star : wf_prog prog_star.
Proof. apply wf_progb_sound. reflexivity. Qed.

Lemma build_limit_witness :
  wf_prog prog_a ∧
  ∃ f r, build_frame (newDfaBuilder prog_a) = Ok (f, r) ∧
         build (newDfaBuilder prog_a) = Ok r ∧
         r = (Some dfa_a, None) ∧
         b_dfa (f_d f) = dfa_a ∧
         (∀ sig, reachable_sig prog_a sig → sig ∈ sigs (f_d f)) ∧
         sigs (f_d f) !! 0 = Some (start_sig prog_a).
Proof.
  split; [exact wf_prog_a|].
  destruct (build_limit prog_a) as [Hany Hwf].
  destruct (Hwf wf_prog_a) as (f & r & E & _ & _ & _ & Hdone & _).
  destruct (Hany f r E) as (E' & _ & Hr).
  assert (Hra : r = (Some dfa_a, None)).
  { pose proof build_prog_a_eq as Ha. rewrite E' in Ha. by injection Ha. }
  assert (Hrs : r = (Some (b_dfa (f_d f)), None)).
  { destruct Hr as [Hr|Hr]; [|exact Hr]. rewrite Hra in Hr. discriminate Hr. }
  assert (Hd : b_dfa (f_d f) = dfa_a) by congruence.
  destruct (Hdone Hrs) as (Hall & Hstart & _).
  exists f, r. split; [exact E|]. split; [exact E'|]. split; [exact Hra|].
  split; [exact Hd|]. split; [exact Hall|].
  apply Hstart. vm_compute. discriminate.
Defined.

Lemma cachedState_interns_witness :
  wf_prog prog_alt ∧
  ∃ d1' d2' i1 i2,
    cachedState (newDfaBuilder prog_alt) (SparseSet 5 [0; 1; 3])
      = Ok (d1', Some i1) ∧
    (∃ st, states (b_dfa d1') !! i1 = Some st ∧
           st_insts st = sig_of prog_alt [0; 1; 3]) ∧
    cachedState d1' (SparseSet 5 [2; 4]) = Ok (d2', Some i2) ∧
    (∃ st, states (b_dfa d2') !! i2 = Some st ∧
           st_insts st = sig_of prog_alt [2; 4]) ∧
    (i1 = i2 ↔ sig_of prog_alt [0; 1; 3] = sig_of prog_alt [2; 4]).
Proof.
  split; [exact wf_prog_alt|].
  assert (Hok1 : set_ok (length prog_alt) (SparseSet 5 [0; 1; 3])).
  { apply (bool_decide_unpack _). vm_compute. exact I. }
  assert (Hok2 : set_ok (length prog_alt) (SparseSet 5 [2; 4])).
  { apply (bool_decide_unpack _). vm_compute. exact I. }
  assert (Hr1 : sig_of prog_alt (dense (SparseSet 5 [0; 1; 3])) ≠ [] →
                reachable_sig prog_alt
                  (sig_of prog_alt (dense (SparseSet 5 [0; 1; 3])))).
  { intros _. apply (reach_start prog_alt). vm_compute. discriminate. }
  assert (Hr2 : sig_of prog_alt (dense (SparseSet 5 [2; 4])) ≠ [] →
                reachable_sig prog_alt
                  (sig_of prog_alt (dense (SparseSet 5 [2; 4])))).
  { intros _.
    apply (reach_step prog_alt (start_sig prog_alt) 97);
      [apply (reach_start prog_alt)|lia|]; vm_compute; discriminate. }
  destruct (cachedState_interns prog_alt wf_prog_alt)
    as ([HI0 _] & Hone & Htwo & _).
  destruct (Hone _ _ HI0 Hok1 Hr1) as (d1' & r1 & E1 & HI1 & Hn1 & Hs1 & _).
  destruct r1 as [i1|].
  2: { exfalso. pose proof (proj1 Hn1 eq_refl) as Hnil.
       vm_compute in Hnil. discriminate Hnil. }
  destruct (Hone _ _ HI1 Hok2 Hr2) as (d2' & r2 & E2 & HI2 & Hn2 & Hs2 & _).
  destruct r2 as [i2|].
  2: { exfalso. pose proof (proj1 Hn2 eq_refl) as Hnil.
       vm_compute in Hnil. discriminate Hnil. }
  exists d1', d2', i1, i2. split; [exact E1|].
  split; [exact (Hs1 i1 eq_refl)|]. split; [exact E2|].
  split; [exact (Hs2 i2 eq_refl)|].
  assert (Hpre : sigs d1' `prefix_of` sigs d1') by reflexivity.
  destruct (Htwo _ _ _ _ _ _ _ _ HI0 HI1 Hpre Hok1 Hok2 Hr1 Hr2 E1 E2)
    as [_ H'].
  destruct (H' i1 i2 eq_refl eq_refl) as [Hiff _]. exact Hiff.
Defined.

Lemma add_unfold_witness :
  targets_ok (insts (Dfa prog_star [])) ∧
  set_ok (length (insts (Dfa prog_star []))) (newSparseSet 4) ∧
  0 < length (insts (Dfa prog_star [])) ∧
  ∃ r, add (Dfa prog_star []) (newSparseSet 4) 0 = Ok r ∧ 0 ∈ dense r.
Proof.
  assert (Ht : targets_ok (insts (Dfa prog_star []))).
  { apply targets_okb_sound. reflexivity. }
  assert (Hok : set_ok (length (insts (Dfa prog_star []))) (newSparseSet 4)).
  { apply (bool_decide_unpack _). vm_compute. exact I. }
  assert (Hip : 0 < length (insts (Dfa prog_star []))) by (simpl; lia).
  split; [exact Ht|]. split; [exact Hok|]. split; [exact Hip|].
  destruct (add_unfold (Dfa prog_star []) (newSparseSet 4) 0 Ht Hok Hip)
    as (_ & _ & H). exact H.
Defined.

Lemma add_terminates_witness :
  targets_ok (insts (Dfa prog_star [])) ∧
  set_ok (length (insts (Dfa prog_star []))) (SparseSet 4 [2]) ∧
  0 < length (insts (Dfa prog_star [])) ∧
  ∃ added,
    add (Dfa prog_star []) (SparseSet 4 [2]) 0
      = Ok (SparseSet 4 ([2] ++ added)) ∧
    NoDup ([2] ++ added).
Proof.
  assert (Ht : targets_ok (insts (Dfa prog_star []))).
  { apply targets_okb_sound. reflexivity. }
  assert (Hok : set_ok (length (insts (Dfa prog_star []))) (SparseSet 4 [2])).
  { apply (bool_decide_unpack _). vm_compute. exact I. }
  assert (Hip : 0 < length (insts (Dfa prog_star []))) by (simpl; lia).
  split; [exact Ht|]. split; [exact Hok|]. split; [exact Hip|].
  exact (add_terminates (Dfa prog_star []) (SparseSet 4 [2]) 0 Ht Hok Hip).
Defined.

Lemma run_step_witness :
  targets_ok (insts (Dfa prog_alt [])) ∧
  ranges_ok (insts (Dfa prog_alt [])) ∧
  set_ok (length (insts (Dfa prog_alt []))) (SparseSet 5 [1; 3]) ∧
  cap (newSparseSet 5) = length (insts (Dfa prog_alt [])) ∧
  ∃ to' wasMatch,
    run (Dfa prog_alt []) (SparseSet 5 [1; 3]) (newSparseSet 5) 97
      = Ok (to', wasMatch) ∧
    NoDup (dense to').
Proof.
  assert (Ht : targets_ok (insts (Dfa prog_alt []))).
  { apply targets_okb_sound. reflexivity. }
  assert (Hr : ranges_ok (insts (Dfa prog_alt []))).
  { apply ranges_okb_sound. reflexivity. }
  assert (Hok : set_ok (length (insts (Dfa prog_alt []))) (SparseSet 5 [1; 3])).
  { apply (bool_decide_unpack _). vm_compute. exact I. }
  split; [exact Ht|]. split; [exact Hr|]. split; [exact Hok|].
  split; [reflexivity|].
  destruct (run_step (Dfa prog_alt []) (SparseSet 5 [1; 3]) (newSparseSet 5)
                     97 Ht Hr Hok eq_refl)
    as (to' & wasMatch & E & _ & Hnd & _).
  exists to', wasMatch. split; [exact E|exact Hnd].
Defined.

Lemma build_reject_witness :
  wf_prog prog_a ∧
  build (newDfaBuilder prog_a) = Ok (Some dfa_a, None) ∧
  states dfa_a !! 1 = Some (State [1] (replicate 256 None) true) ∧
  0 < 256 ∧
  st_next (State [1] (replicate 256 None) true) !! 0 = Some None.
Proof.
  assert (Hb : 0 < 256) by lia.
  split; [exact wf_prog_a|]. split; [exact build_prog_a_eq|].
  split; [reflexivity|]. split; [exact Hb|].
  apply (build_reject prog_a dfa_a 1 (State [1] (replicate 256 None) true) 0
           wf_prog_a build_prog_a_eq eq_refl Hb).
  intros ip x Hip Hx Hop. cbn [st_insts] in Hip.
  apply list_elem_of_singleton in Hip. subst ip.
  injection Hx as <-. discriminate Hop.
Defined.

Lemma build_no_start_witness :
  0 < length [Jmp 0] ∧ targets_ok [Jmp 0] ∧ start_sig [Jmp 0] = [] ∧
  build (newDfaBuilder [Jmp 0]) = Ok (Some (Dfa [Jmp 0] []), None).
Proof.
  assert (Hpos : 0 < length [Jmp 0]) by (simpl; lia).
  assert (Ht : targets_ok [Jmp 0]) by (apply targets_okb_sound; reflexivity).
  assert (Hs : start_sig [Jmp 0] = []) by reflexivity.
  split; [exact Hpos|]. split; [exact Ht|]. split; [exact Hs|].
  exact (build_no_start [Jmp 0] Hpos Ht Hs).
Defined.

Lemma build_invariant_witness :
  build (newDfaBuilder prog_a) = Ok (Some dfa_a, None) ∧
  state_inv prog_a (states dfa_a).
Proof.
  split; [exact build_prog_a_eq|].
  destruct (build_invariant prog_a) as (_ & _ & _ & _ & H).
  exact (H dfa_a build_prog_a_eq).
Defined.

(** * Further properties of the code *)

(** ** The stack *)

(** X1. [Pop] undoes [Push]; on the empty stack it returns the stack and
    nil; and a stack that pops a value is that value pushed on the stack
    [Pop] returns. *)
Theorem stack_lifo (s : uintpStack) (v : option nat) :
  Pop (Push s v) = (s, v) ∧
  Pop ([] : uintpStack) = ([], None) ∧
  (∀ s' w, Pop s = (s', Some w) → s = Push s' (Some w)).
Proof.
  split; [apply Pop_snoc|]. split; [done|].
  intros s' w. destruct s as [|o l _] using rev_ind; [done|].
  rewrite Pop_snoc. by intros [= <- ->].
Qed.

(** ** [cachedState] *)

(** X2. Handing [cachedState] the same set again answers the same index
    and leaves the builder as the first call left it, whatever the
    builder: the second call finds the key the first one stored. *)
Theorem cachedState_again (d d' : dfaBuilder) (set : sparseSet)
    (r : option nat) :
  cachedState d set = Ok (d', r) → cachedState d' set = Ok (d', r).
Proof.
  unfold cachedState. intros E.
  destruct (cached_loop (insts (b_dfa d)) (dense set) [] false)
    as [[sig m]| |] eqn:El; [|done..].
  cbn [mbind result_bind] in E.
  destruct (decide (length sig = 0)) as [H0|H0].
  { assert (d' = d) as -> by congruence. rewrite El.
    cbn [mbind result_bind]. by rewrite decide_True. }
  destruct (cache d !! Sprintf_v sig) as [v|] eqn:Ec.
  { assert (d' = d) as -> by congruence. rewrite El.
    cbn [mbind result_bind]. rewrite decide_False by done. by rewrite Ec. }
  assert (Hd : d' = DfaBuilder
    (Dfa (insts (b_dfa d))
         (states (b_dfa d) ++ [State sig (replicate 256 None) m]))
    (<[Sprintf_v sig := length (states (b_dfa d)
                                ++ [State sig (replicate 256 None) m]) - 1]>
       (cache d))) by congruence.
  assert (Hr : r = Some (length (states (b_dfa d)
                                 ++ [State sig (replicate 256 None) m]) - 1))
    by congruence.
  clear E. subst d' r. cbn [b_dfa insts cache]. rewrite El.
  cbn [mbind result_bind]. rewrite decide_False by done.
  by rewrite lookup_insert_eq.
Qed.

(** ** [runState] *)

Lemma cachedState_keeps d set d' r :
  cachedState d set = Ok (d', r) →
  insts (b_dfa d') = insts (b_dfa d) ∧
  (∀ i st, states (b_dfa d) !! i = Some st →
           states (b_dfa d') !! i = Some st) ∧
  length (states (b_dfa d)) ≤ length (states (b_dfa d')) ≤
    S (length (states (b_dfa d))).
Proof.
  unfold cachedState. intros E.
  destruct (cached_loop (insts (b_dfa d)) (dense set) [] false)
    as [[sig m]| |] eqn:El; [|done..].
  cbn [mbind result_bind] in E.
  destruct (decide (length sig = 0)) as [H0|H0].
  { assert (d' = d) as -> by congruence. split; [done|]. split; [done|lia]. }
  destruct (cache d !! Sprintf_v sig) as [v|] eqn:Ec.
  { assert (d' = d) as -> by congruence. split; [done|]. split; [done|lia]. }
  assert (Hd : d' = DfaBuilder
    (Dfa (insts (b_dfa d))
         (states (b_dfa d) ++ [State sig (replicate 256 None) m]))
    (<[Sprintf_v sig := length (states (b_dfa d)
                                ++ [State sig (replicate 256 None) m]) - 1]>
       (cache d))) by congruence.
  clear E. subst d'. cbn [b_dfa insts states]. split; [done|]. split.
  - intros i st Hi. by apply lookup_app_l_Some.
  - rewrite length_app. cbn [length]. lia.
Qed.

(** X3. When [runState] returns, it has kept the program, every state
    other than [s], and of state [s] the signature, the match flag and
    every slot but [b], which now holds the index it returns; it has
    appended at most one state; and the scratch set [cur] holds the
    signature of [s], when that signature holds no index twice. *)
Theorem runState_frame (d d' : dfaBuilder) (cur next cur' next' : sparseSet)
    (s b : nat) (ns : option nat) :
  runState d cur next s b = Ok (d', cur', next', ns) →
  insts (b_dfa d') = insts (b_dfa d) ∧
  (∀ i st, i ≠ s → states (b_dfa d) !! i = Some st →
           states (b_dfa d') !! i = Some st) ∧
  (∃ st, states (b_dfa d) !! s = Some st ∧
         b < length (st_next st) ∧
         states (b_dfa d') !! s
           = Some (State (st_insts st) (<[b := ns]> (st_next st))
                         (st_match st)) ∧
         (NoDup (st_insts st) → dense cur' = st_insts st)) ∧
  length (states (b_dfa d)) ≤ length (states (b_dfa d')) ≤
    S (length (states (b_dfa d))).
Proof.
  intros E. unfold runState in E.
  apply bind_is_Ok in E as (st & Hs%index_is_Ok & E).
  apply bind_is_Ok in E as (cur1 & Hcur & E).
  apply bind_is_Ok in E as ([next1 m] & _ & E).
  apply bind_is_Ok in E as ([d1 r] & Hcs & E).
  apply bind_is_Ok in E as (st1 & Hs1%index_is_Ok & E).
  apply bind_is_Ok in E as (st2 & Hset & E).
  injection E as <- <- _ <-.
  destruct (cachedState_keeps d next1 d1 r Hcs) as (Hp & Hkeep & Hlen).
  assert (st1 = st) as -> by (apply Hkeep in Hs; congruence).
  unfold set_next in Hset. case_decide as Hb; [|done]. injection Hset as <-.
  cbn [b_dfa insts states]. rewrite length_insert.
  split; [done|]. split; [|split; [|done]].
  - intros i sti Hi Hsti. rewrite list_lookup_insert_ne by done.
    by apply Hkeep.
  - exists st. split; [done|]. split; [done|]. split.
    + apply list_lookup_insert_eq. by eapply lookup_lt_Some.
    + intros Hnd. clear -Hcur Hnd.
      assert (Hgen : ∀ l pre c r,
        add_all (SparseSet c pre) l = Ok r → NoDup (pre ++ l) →
        dense r = pre ++ l).
      { induction l as [|ip l IH]; intros pre c r E Hn; simpl in E.
        - injection E as <-. by rewrite app_nil_r.
        - apply bind_is_Ok in E as (s1 & Ha & E). unfold Add in Ha.
          case_decide; [|done]. simpl in Ha.
          rewrite bool_decide_eq_false_2 in Ha.
          + injection Ha as <-. apply IH in E; [|by rewrite <- app_assoc].
            by rewrite E, <- app_assoc.
          + apply NoDup_app in Hn as (_ & Hd & _). intros Hin.
            apply (Hd ip Hin). by apply elem_of_cons; left. }
      by apply (Hgen _ [] _ _ Hcur).
Qed.

(** ** The cache key *)

(** X4. The key [fmt.Sprintf("%v", insts)] determines the signature: two
    lists of indices with the same key are the same list, so the cache
    never takes one signature for another. *)
Theorem cache_key_inj (l1 l2 : list nat) :
  Sprintf_v l1 = Sprintf_v l2 → l1 = l2.
Proof. apply Sprintf_v_inj. Qed.

(** ** The shape of the states *)

(** X5. In every DFA [build] returns, for every program, the match flag
    of a state is set exactly when the signature of the state holds the
    index of a [Match] instruction. *)
Theorem build_match_flag (p : prog) (d : dfa) (s : nat) (st : state) :
  build (newDfaBuilder p) = Ok (Some d, None) →
  states d !! s = Some st →
  (st_match st = true ↔
     ∃ ip x, ip ∈ st_insts st ∧ p !! ip = Some x ∧ op x = OpMatch).
Proof.
  intros [_ Hsh]%build_SInv Hs.
  destruct (Hsh s st Hs) as (_ & _ & ->). apply has_match_spec.
Qed.

(** X6. Every DFA [build] returns, for every program, carries the program
    it was built from, and each of its states has exactly 256 slots and a
    signature that is not empty: the empty signature never becomes a
    state. *)
Theorem build_state_shape (p : prog) (d : dfa) :
  build (newDfaBuilder p) = Ok (Some d, None) →
  insts d = p ∧
  ∀ s st, states d !! s = Some st →
          length (st_next st) = 256 ∧ st_insts st ≠ [].
Proof.
  intros [Hp Hsh]%build_SInv. split; [done|].
  intros s st Hs. destruct (Hsh s st Hs) as (? & ? & _). done.
Qed.

(** ** The transitions and the start state of a built DFA *)

Lemma build_ok_post p d :
  wf_prog p → build (newDfaBuilder p) = Ok (Some d, None) →
  ∃ f, d = b_dfa (f_d f) ∧ BInv p (f_d f) ∧
       (start_sig p ≠ [] → sigs (f_d f) !! 0 = Some (start_sig p)) ∧
       ∀ i, i < length (states d) → closed p (f_d f) i.
Proof.
  intros Hwf [f E]%build_frame_of.
  destruct (build_frame_ok p Hwf) as (f' & r' & E' & HI & Hr).
  rewrite E in E'. injection E' as <- <-.
  destruct Hr as [[[=] _]|([= ->] & _ & Hstart & Hclosed)].
  by exists f.
Qed.


(** X8. The start state of a DFA built from a well-formed program is state
    0: when the closure of instruction 0 reaches a [Range] or a [Match],
    state 0 exists and its signature is the indices of the [Range] and
    [Match] instructions reached from instruction 0 through [Jmp] and
    [Split] edges, in the order the closure found them. *)
Theorem build_start (p : prog) (d : dfa) :
  wf_prog p →
  build (newDfaBuilder p) = Ok (Some d, None) →
  (∀ j, j ∈ start_sig p ↔ significant p j ∧ rtc (eps_edge p) 0 j) ∧
  (start_sig p ≠ [] →
   ∃ st, states d !! 0 = Some st ∧ st_insts st = start_sig p).
Proof.
  intros Hwf Hb. pose proof Hwf as (Hpos & Ht & _).
  split; [intros j; by apply start_sig_members|]. intros Hne.
  destruct (build_ok_post p d Hwf Hb) as (f & -> & _ & Hstart & _).
  by apply sigs_lookup_inv, Hstart.
Qed.

(** ** The number of states *)

Lemma runState_grows_one d cur next s b d' cur' next' ns :
  runState d cur next s b = Ok (d', cur', next', ns) →
  length (states (b_dfa d')) ≤ S (length (states (b_dfa d))).
Proof.
  intros E. unfold runState in E.
  apply bind_is_Ok in E as (st & _ & E).
  apply bind_is_Ok in E as (cur1 & _ & E).
  apply bind_is_Ok in E as ([next1 m] & _ & E).
  apply bind_is_Ok in E as ([d1 r] & Hcs & E).
  apply bind_is_Ok in E as (st1 & _ & E).
  apply bind_is_Ok in E as (st2 & _ & E).
  injection E as <- _ _ _. cbn [b_dfa states]. rewrite length_insert.
  by apply cachedState_keeps in Hcs as (_ & _ & _ & ?).
Qed.

Lemma byte_loop_inl_exact p s n : ∀ b f f',
  GInv p f → byte_loop n b s f = Ok (inl f') →
  length (states (b_dfa (f_d f'))) = S StateLimit.
Proof.
  induction n as [|n IH]; intros b f f' HG E; [done|].
  rewrite byte_loop_S in E.
  apply bind_is_Ok in E as (r1 & E1 & E).
  destruct r1 as [f1|f1].
  - injection E as <-. pose proof (byte_loop_inl s 1 b f f1 E1) as Hover.
    simpl in E1.
    apply bind_is_Ok in E1 as ([[[d cur] next] ns] & Hr & E1).
    apply runState_grows_one in Hr.
    destruct (match ns with
              | Some v =>
                if bool_decide (v ∈ f_seen f) then (f_states f, f_seen f)
                else (Push (f_states f) ns, {[v]} ∪ f_seen f)
              | None => (f_states f, f_seen f)
              end) as [sts seen].
    destruct HG as (_ & _ & Hlim).
    destruct (decide (StateLimit < length (states (b_dfa d))));
      [|done]. injection E1 as <-. simpl in *. lia.
  - destruct (byte_loop_total p s 1 b f HG) as [_ Hr].
    destruct (Hr f1 E1) as [HG1 _]. by eapply IH.
Qed.

Lemma state_loop_exact p fuel : ∀ s f f',
  GInv p f → state_loop fuel s f = Ok (f', (None, Some ErrTooManyStates)) →
  length (states (b_dfa (f_d f'))) = S StateLimit.
Proof.
  induction fuel as [|fuel IH]; intros [sv|] f f' HG E; try done.
  rewrite state_loop_S in E.
  apply bind_is_Ok in E as (r1 & Hb & E).
  destruct r1 as [f1|f1].
  - injection E as <-. by eapply byte_loop_inl_exact.
  - destruct (byte_loop_total p sv 256 0 f HG) as [_ Hr].
    destruct (Hr f1 Hb) as [HG1 _].
    destruct (Pop (f_states f1)) as [sts s'].
    eapply IH; [|exact E]. exact HG1.
Qed.

(** X9. Whatever the program, the builder [build] returns from never
    holds more than [StateLimit + 1] states, and when [build] returns the
    error it holds exactly [StateLimit + 1]: the limit is checked after
    every byte, and a byte adds at most one state. *)
Theorem build_state_bound (p : prog) (f : frame)
    (r : option dfa * option error) :
  build_frame (newDfaBuilder p) = Ok (f, r) →
  length (states (b_dfa (f_d f))) ≤ S StateLimit ∧
  (r = (None, Some ErrTooManyStates) →
   length (states (b_dfa (f_d f))) = S StateLimit).
Proof.
  intros E.
  assert (Herr : r = (None, Some ErrTooManyStates) →
                 length (states (b_dfa (f_d f))) = S StateLimit).
  { intros ->. unfold build_frame in E.
    apply bind_is_Ok in E as ([s f0] & E0 & E).
    destruct (build_init_total p) as [_ H0].
    destruct (H0 s f0 E0) as (HG & _). by eapply state_loop_exact. }
  split; [|done].
  destruct (build_frame_result p f r E) as [[-> _]|[_ Hle]]; [|lia].
  by rewrite Herr.
Qed.

(** ** The worklist *)

Lemma Pop_Some_inv (l : list (option nat)) sts v :
  Pop l = (sts, Some v) → l = sts ++ [Some v].
Proof.
  destruct l as [|o l _] using rev_ind; [done|].
  rewrite Pop_snoc. by intros [= <- ->].
Qed.

Lemma build_init_shape p s f :
  build_init (newDfaBuilder p) = Ok (Some s, f) →
  s = 0 ∧ f_states f = [] ∧ f_seen f = ∅.
Proof.
  unfold build_init. intros E.
  apply bind_is_Ok in E as (cur & _ & E).
  apply bind_is_Ok in E as ([d s0] & Hcs & E).
  simpl in E. injection E as -> <-. split; [|done].
  unfold cachedState in Hcs.
  destruct (cached_loop (insts (b_dfa (newDfaBuilder p))) (dense cur) [] false)
    as [[sig m]| |]; [|done..].
  cbn [mbind result_bind] in Hcs.
  destruct (decide (length sig = 0)); [done|].
  cbn [newDfaBuilder cache] in Hcs. rewrite lookup_empty in Hcs.
  injection Hcs as _ <-. cbn [b_dfa states app length]. lia.
Qed.

(** One turn of the byte loop pushes nothing, or pushes an index that is
    not in [seen] and records it there. *)
Lemma byte_step_worklist b s f f' :
  byte_loop 1 b s f = Ok (inr f') →
  (f_states f' = f_states f ∧ f_seen f' = f_seen f) ∨
  (∃ v, (v ∉ f_seen f) ∧ f_states f' = f_states f ++ [Some v] ∧
        f_seen f' = ({[v]} ∪ f_seen f)).
Proof.
  intros E. simpl in E.
  apply bind_is_Ok in E as ([[[d cur] next] ns] & _ & E).
  destruct ns as [v|].
  - case_bool_decide as Hv.
    + destruct (decide (StateLimit < length (states (b_dfa d)))); [done|].
      injection E as <-. by left.
    + destruct (decide (StateLimit < length (states (b_dfa d)))); [done|].
      injection E as <-. right. by exists v.
  - destruct (decide (StateLimit < length (states (b_dfa d)))); [done|].
    injection E as <-. by left.
Qed.

Lemma at_byte_WInv p s b f : at_byte p s b f → WInv s f.
Proof.
  induction 1 as [s f E|s b f f' _ IH Hb E|s f sts s' _ IH EP].
  - apply build_init_shape in E as (-> & Hst & Hse). unfold WInv.
    rewrite Hst. split; [apply NoDup_nil_2|]. split.
    + intros o Ho. by apply elem_of_nil in Ho.
    + split; [by right|done].
  - destruct IH as (Hnd & Hin & Hs & Hon).
    destruct (byte_step_worklist b s f f' E)
      as [[Est Ese]|(v & Hv & Est & Ese)]; unfold WInv; rewrite Est, Ese.
    { done. }
    split; [|split; [|split]].
    + apply NoDup_app. split; [done|]. split; [|apply NoDup_singleton].
      intros o Ho ->%list_elem_of_singleton.
      destruct (Hin _ Ho) as (w & [= <-] & Hw). done.
    + intros o [Ho| ->%list_elem_of_singleton]%elem_of_app.
      * destruct (Hin o Ho) as (w & -> & Hw). exists w.
        split; [done|]. apply elem_of_union. by right.
      * exists v. split; [done|]. apply elem_of_union. left.
        by apply elem_of_singleton.
    + destruct Hs as [Hs| ->]; [left|by right].
      apply elem_of_union. by right.
    + intros [Ho|[= <-]%list_elem_of_singleton]%elem_of_app; [by apply Hon|].
      by destruct Hs.
  - destruct IH as (Hnd & Hin & _ & _).
    apply Pop_Some_inv in EP. rewrite EP in Hnd, Hin.
    apply NoDup_app in Hnd as (Hnd & Hdis & _).
    unfold WInv. cbn [f_states f_seen]. split; [done|]. split; [|split].
    + intros o Ho. apply Hin, elem_of_app. by left.
    + left. destruct (Hin (Some s')) as (w & [= <-] & Hw); [|done].
      apply elem_of_app. right. by apply list_elem_of_singleton.
    + intros Ho. exfalso. apply (Hdis _ Ho). by apply list_elem_of_singleton.
Qed.

(** X10. Whatever the program, at every head of the byte loop the stack
    holds no state index twice and only indices recorded in [seen]; the
    state being processed is recorded in [seen] unless it is state 0; and
    no state other than state 0 is on the stack while it is processed.
    An index is pushed only when it is not in [seen], and is then
    recorded there. *)
Theorem worklist_invariant (p : prog) (s b : nat) (f : frame) :
  at_byte p s b f →
  NoDup (f_states f) ∧
  (∀ o, o ∈ f_states f → ∃ v, o = Some v ∧ v ∈ f_seen f) ∧
  (s ∈ f_seen f ∨ s = 0) ∧
  (Some s ∈ f_states f → s = 0) ∧
  (∀ f', byte_loop 1 b s f = Ok (inr f') →
     (f_states f' = f_states f ∧ f_seen f' = f_seen f) ∨
     (∃ v, (v ∉ f_seen f) ∧ f_states f' = f_states f ++ [Some v] ∧
           f_seen f' = ({[v]} ∪ f_seen f))).
Proof.
  intros Hat. destruct (at_byte_WInv p s b f Hat) as (H1 & H2 & H3 & H4).
  split; [done|]. split; [done|]. split; [done|]. split; [done|].
  intros f'. apply byte_step_worklist.
Qed.

(** ** Processing a state again *)

Lemma builder_eq d d' :
  insts (b_dfa d') = insts (b_dfa d) →
  states (b_dfa d') = states (b_dfa d) → cache d' = cache d → d' = d.
Proof.
  destruct d as [[i1 s1] c1], d' as [[i2 s2] c2]. simpl. by intros -> -> ->.
Qed.

(** On a fully processed state [runState] leaves the builder as it is. *)
Lemma runState_closed p d cur next s b :
  wf_prog p → BInv p d →
  cap cur = length p → cap next = length p →
  closed p d s → b < 256 →
  ∃ cur' next' ns,
    runState d cur next s b = Ok (d, cur', next', ns) ∧
    cap cur' = length p ∧ cap next' = length p ∧
    ∀ v, ns = Some v → v < length (states (b_dfa d)).
Proof.
  intros Hwf HI Hcur Hnext (st & Hst & Hfill) Hb.
  destruct (runState_ok p d cur next s b st Hwf HI Hcur Hnext Hst Hb)
    as (d' & cur' & next' & ns & E & HI' & Hc' & Hn' & Hpre & Hother & Hs'
        & Hen & Hgrow).
  destruct (Hfill b Hb) as (o & Ho & Heo).
  assert (Hns : ns = o).
  { destruct o as [t|], ns as [t'|]; simpl in Heo, Hen; try done.
    - destruct Heo as [_ Ht], Hen as [_ Ht']. f_equal.
      eapply (BInv_inj p d'); [done|exact Ht'|].
      by eapply prefix_lookup_Some.
    - by destruct Heo.
    - by destruct Hen. }
  subst ns.
  assert (Hlen : length (states (b_dfa d')) = length (states (b_dfa d))).
  { destruct Hgrow as [?|[_ ->]]; [done|].
    destruct Heo as [_ Ht]. apply lookup_lt_Some in Ht.
    rewrite sigs_length in Ht. lia. }
  assert (Hstates : states (b_dfa d') = states (b_dfa d)).
  { apply list_eq. intros i. destruct (decide (i = s)) as [->|Hi].
    - rewrite Hs', Hst. f_equal. rewrite list_insert_id by done.
      by destruct st.
    - destruct (decide (i < length (states (b_dfa d)))) as [Hlt|Hge].
      + by apply Hother.
      + rewrite !lookup_ge_None_2; [done|lia..]. }
  assert (Hd : d' = d).
  { apply builder_eq; [|done|].
    - by rewrite (binv_insts p d' HI'), (binv_insts p d HI).
    - apply map_eq. intros k. apply option_eq. intros v.
      rewrite (binv_cache p d' HI'), (binv_cache p d HI).
      unfold sigs. by rewrite Hstates. }
  rewrite Hd in E. exists cur', next', o. split; [done|].
  split; [done|]. split; [done|].
  intros v ->. destruct Heo as [_ Ht]. apply lookup_lt_Some in Ht.
  by rewrite sigs_length in Ht.
Qed.

Lemma byte_loop_closed p s n : ∀ b f,
  wf_prog p → BInv p (f_d f) →
  cap (f_cur f) = length p → cap (f_next f) = length p →
  length (states (b_dfa (f_d f))) ≤ StateLimit →
  closed p (f_d f) s → b + n = 256 →
  ∃ f', byte_loop n b s f = Ok (inr f') ∧ f_d f' = f_d f.
Proof.
  induction n as [|n IH]; intros b f Hwf HI Hcur Hnext Hlim Hcl Hbn.
  { by exists f. }
  destruct (runState_closed p (f_d f) (f_cur f) (f_next f) s b)
    as (cur' & next' & ns & E & Hc' & Hn' & _); [done..|lia|].
  simpl. rewrite E. simpl.
  destruct (match ns with
            | Some v =>
              if bool_decide (v ∈ f_seen f) then (f_states f, f_seen f)
              else (Push (f_states f) ns, {[v]} ∪ f_seen f)
            | None => (f_states f, f_seen f)
            end) as [sts seen].
  rewrite decide_False by lia.
  destruct (IH (S b) (Frame (f_d f) cur' next' sts seen))
    as (f' & E' & Hd); [done..|lia|].
  exists f'. split; [done|]. by rewrite Hd.
Qed.

(** X11. For a well-formed program, processing a state whose 256 slots
    are already filled leaves the builder as it is: no state is added, no
    slot and no cache entry changes.  The second pass the start state can
    get does not change the DFA. *)
Theorem reprocess_keeps (p : prog) (s : nat) (f : frame) :
  wf_prog p → at_byte p s 0 f → closed p (f_d f) s →
  ∃ f', byte_loop 256 0 s f = Ok (inr f') ∧ f_d f' = f_d f.
Proof.
  intros Hwf Hat Hcl.
  destruct (at_byte_FInv p s 0 f Hwf Hat) as [HI Hcur Hnext Hlim _ _ _ _ _].
  by apply (byte_loop_closed p).
Qed.

(** ** The closure as a set *)

(** X12. For a program with targets in bounds and a set closed under the
    [Jmp] and [Split] edges (the empty set is), the closure of [ip] into
    the set returns a closed set whose members are those of the set and
    the indices reached from [ip]; closing over [ip] again changes
    nothing. *)
Theorem add_members (d : dfa) (set : sparseSet) (ip : nat) :
  targets_ok (insts d) → set_ok (length (insts d)) set →
  ip < length (insts d) → eps_closed (insts d) (dense set) →
  ∃ r, add d set ip = Ok r ∧
       eps_closed (insts d) (dense r) ∧
       (∀ j, j ∈ dense r ↔ j ∈ dense set ∨ rtc (eps_edge (insts d)) ip j) ∧
       add d r ip = Ok r.
Proof.
  intros Ht Hok Hip Hcl.
  destruct (add_ok d Ht set ip Hok Hip) as (added & E & _ & _ & Hin & _).
  destruct (add_closed d set ip _ Ht Hok Hip Hcl E) as (Hok' & Hcl' & Hmem).
  eexists. split; [exact E|]. split; [done|]. split; [done|].
  unfold add. simpl.
  rewrite (Contains_Ok (length (insts d))) by (done || by destruct Hok').
  simpl. by rewrite bool_decide_eq_true_2.
Qed.

(** X13. For a program with targets in bounds and a closed set, closing
    over [a] and then [b] gives the same members as closing over [b] and
    then [a]: the two sets are permutations of each other.  (Their order
    can differ, and with it the signature.) *)
Theorem add_swap (d : dfa) (set : sparseSet) (a b : nat) :
  targets_ok (insts d) → set_ok (length (insts d)) set →
  a < length (insts d) → b < length (insts d) →
  eps_closed (insts d) (dense set) →
  ∃ r1 r2 r1' r2',
    add d set a = Ok r1 ∧ add d r1 b = Ok r2 ∧
    add d set b = Ok r1' ∧ add d r1' a = Ok r2' ∧
    dense r2 ≡ₚ dense r2'.
Proof.
  intros Ht Hok Ha Hb Hcl.
  destruct (add_ok d Ht set a Hok Ha) as (ad1 & E1 & _).
  destruct (add_closed d set a _ Ht Hok Ha Hcl E1) as (Hok1 & Hcl1 & Hm1).
  destruct (add_ok d Ht _ b Hok1 Hb) as (ad2 & E2 & _).
  destruct (add_closed d _ b _ Ht Hok1 Hb Hcl1 E2) as (Hok2 & _ & Hm2).
  destruct (add_ok d Ht set b Hok Hb) as (ad1' & E1' & _).
  destruct (add_closed d set b _ Ht Hok Hb Hcl E1') as (Hok1' & Hcl1' & Hm1').
  destruct (add_ok d Ht _ a Hok1' Ha) as (ad2' & E2' & _).
  destruct (add_closed d _ a _ Ht Hok1' Ha Hcl1' E2') as (Hok2' & _ & Hm2').
  eexists _, _, _, _. split; [exact E1|]. split; [exact E2|].
  split; [exact E1'|]. split; [exact E2'|].
  apply NoDup_Permutation.
  - by destruct Hok2 as (_ & ? & _).
  - by destruct Hok2' as (_ & ? & _).
  - intros j. rewrite Hm2, Hm1, Hm2', Hm1'. tauto.
Qed.

(** ** Programs that are not well formed *)

(** X14. Whatever the program, in bounds or not, the closure into a set
    without duplicates and within its capacity never recurses deeper than
    the capacity plus one: it panics on an index out of range or returns a
    set, again without duplicates and within the capacity, that is no
    shorter. *)
Theorem add_returns_or_panics (d : dfa) (set : sparseSet) (ip : nat) :
  set_ok (cap set) set →
  add d set ip ≠ OutOfFuel ∧
  ∀ r, add d set ip = Ok r →
       set_ok (cap set) r ∧ length (dense set) ≤ length (dense r).
Proof.
  intros Hok. apply (add_fuel_total (insts d) (S (cap set))); [done|lia].
Qed.

(** X15. Whatever the program, the loop of [build] over the stack ends:
    no more than [StateLimit + 1] states are popped, so [build] returns or
    panics. *)
Theorem build_returns_or_panics (p : prog) :
  build (newDfaBuilder p) ≠ OutOfFuel.
Proof. apply build_total. Qed.

(** X16. An index past the end of the program makes the closure panic,
    whatever the set holds; so [build] panics on the empty program, which
    has no instruction 0 to close over. *)
Theorem add_out_of_range (d : dfa) (set : sparseSet) (ip : nat) :
  cap set = length (insts d) → length (insts d) ≤ ip →
  add d set ip = Panic ∧ build (newDfaBuilder []) = Panic.
Proof.
  intros Hcap Hip. split; [|reflexivity].
  unfold add. simpl. unfold Contains. by rewrite decide_False by lia.
Qed.

Lemma run_loop_last_range d b ip x : ∀ ips to_ m,
  set_ok (length (insts d)) to_ →
  ip ∈ ips → insts d !! ip = Some x → op x = OpRange →
  rangeStart x ≤ b ≤ rangeEnd x → S ip = length (insts d) →
  run_loop d ips b to_ m = Panic.
Proof.
  intros ips. induction ips as [|ip0 ips IH]; intros to_ m Hok Hin Hx Hop Hr Hl.
  { by apply elem_of_nil in Hin. }
  simpl. unfold index at 1.
  destruct (insts d !! ip0) as [x0|] eqn:Hx0; [|done]. simpl.
  destruct (decide (ip0 = ip)) as [->|Hne].
  - assert (x0 = x) as -> by congruence. rewrite Hop.
    rewrite (proj2 (in_range_spec x b) Hr).
    assert (Hcap : cap to_ = length (insts d)) by (by destruct Hok).
    unfold add. simpl. unfold Contains.
    rewrite decide_False by lia. done.
  - apply elem_of_cons in Hin as [?|Hin]; [done|].
    destruct (op x0); try by apply IH.
    destruct (in_range x0 b); [|by apply IH].
    assert (Hcap : cap to_ = length (insts d)) by (by destruct Hok).
    assert (Hok' : set_ok (cap to_) to_) by (by rewrite Hcap).
    destruct (add_total d to_ (ip0 + 1) Hok') as [Hne' Hr'].
    destruct (add d to_ (ip0 + 1)) as [to'| |]; [|done..]. simpl.
    apply IH; try done. specialize (Hr' to' eq_refl).
    by rewrite Hcap in Hr'.
Qed.

(** X17. A [Range] in the last place of the program has no instruction
    to fall through to: whatever else the program holds, the step on a
    byte the [Range] covers, from a set holding its index, panics. *)
Theorem run_last_range_panics (d : dfa) (from to_ : sparseSet)
    (b ip : nat) (x : inst) :
  cap to_ = length (insts d) →
  ip ∈ dense from → insts d !! ip = Some x → op x = OpRange →
  rangeStart x ≤ b ≤ rangeEnd x → S ip = length (insts d) →
  run d from to_ b = Panic.
Proof.
  intros Hcap Hin Hx Hop Hr Hl. unfold run.
  eapply run_loop_last_range; eauto. by apply set_ok_Clear.
Qed.

(** ** Instances of the further properties *)

Lemma prog_a_init :
  ∃ f, build_init (newDfaBuilder prog_a) = Ok (Some 0, f).
Proof.
  destruct (build_init (newDfaBuilder prog_a)) as [[s f]| |] eqn:E;
    try by vm_compute in E.
  exists f. vm_compute in E. by injection E as <- _.
Qed.

(** On [Split(1,3), Range('a','a'), Jmp(0), Match] the start state is at
    the head of the byte loop a second time, all its slots filled. *)
Lemma star_second_pass :
  ∃ f, at_byte prog_star 0 0 f ∧ closed prog_star (f_d f) 0.
Proof.
  destruct (build_init (newDfaBuilder prog_star)) as [[s f0]| |] eqn:E0;
    try by vm_compute in E0.
  assert (Hs : s = Some 0).
  { vm_compute in E0. by injection E0 as <- _. }
  subst s.
  pose proof wf_prog_star as Hwf.
  pose proof (at_init prog_star 0 f0 E0) as Hat0.
  destruct (byte_loop_ok prog_star Hwf 0 256 0 f0) as (r & E & Hr);
    [by apply at_byte_FInv|done|].
  destruct r as [f|f].
  { exfalso. vm_compute in E0. injection E0 as <-. by vm_compute in E. }
  pose proof (byte_loop_at _ _ _ _ _ _ Hat0 eq_refl E) as Hat.
  assert (HP : Pop (f_states f) = ([], Some 0)).
  { vm_compute in E0. injection E0 as <-. vm_compute in E.
    injection E as <-. reflexivity. }
  exists (Frame (f_d f) (f_cur f) (f_next f) [] (f_seen f)).
  split; [by apply (at_pop prog_star 0 f [] 0)|].
  by apply (finv_filled _ _ _ _ (proj1 Hr)).
Qed.

Lemma cachedState_again_witness :
  ∃ d' r,
    cachedState (newDfaBuilder prog_a) (SparseSet 2 [0]) = Ok (d', r) ∧
    cachedState d' (SparseSet 2 [0]) = Ok (d', r).
Proof.
  destruct (cachedState (newDfaBuilder prog_a) (SparseSet 2 [0]))
    as [[d' r]| |] eqn:E; try by vm_compute in E.
  exists d', r. split; [reflexivity|].
  exact (cachedState_again _ _ _ _ E).
Defined.

Lemma runState_frame_witness :
  ∃ f d' cur' next' ns,
    build_init (newDfaBuilder prog_a) = Ok (Some 0, f) ∧
    runState (f_d f) (f_cur f) (f_next f) 0 97 = Ok (d', cur', next', ns) ∧
    insts (b_dfa d') = insts (b_dfa (f_d f)) ∧
    length (states (b_dfa (f_d f))) ≤ length (states (b_dfa d')) ≤
      S (length (states (b_dfa (f_d f)))).
Proof.
  destruct prog_a_init as [f E0].
  destruct (runState (f_d f) (f_cur f) (f_next f) 0 97)
    as [[[[d' cur'] next'] ns]| |] eqn:E1.
  - exists f, d', cur', next', ns. split; [exact E0|]. split; [exact E1|].
    destruct (runState_frame _ _ _ _ _ _ _ _ _ E1) as (Hi & _ & _ & Hl).
    split; [exact Hi|exact Hl].
  - exfalso. vm_compute in E0. injection E0 as <-. by vm_compute in E1.
  - exfalso. vm_compute in E0. injection E0 as <-. by vm_compute in E1.
Defined.

Lemma cache_key_inj_witness :
  Sprintf_v [1; 3] = Sprintf_v ([1] ++ [3]) ∧ [1; 3] = [1] ++ [3].
Proof.
  assert (H : Sprintf_v [1; 3] = Sprintf_v ([1] ++ [3])) by reflexivity.
  split; [exact H|]. exact (cache_key_inj _ _ H).
Defined.

Lemma build_match_flag_witness :
  build (newDfaBuilder prog_a) = Ok (Some dfa_a, None) ∧
  states dfa_a !! 1 = Some (State [1] (replicate 256 None) true) ∧
  (st_match (State [1] (replicate 256 None) true) = true ↔
     ∃ ip x, ip ∈ st_insts (State [1] (replicate 256 None) true) ∧
             prog_a !! ip = Some x ∧ op x = OpMatch).
Proof.
  assert (Hs : states dfa_a !! 1 = Some (State [1] (replicate 256 None) true))
    by reflexivity.
  split; [exact build_prog_a_eq|]. split; [exact Hs|].
  exact (build_match_flag prog_a dfa_a 1 _ build_prog_a_eq Hs).
Defined.

Lemma build_state_shape_witness :
  build (newDfaBuilder prog_a) = Ok (Some dfa_a, None) ∧
  insts dfa_a = prog_a ∧
  ∀ s st, states dfa_a !! s = Some st →
          length (st_next st) = 256 ∧ st_insts st ≠ [].
Proof.
  split; [exact build_prog_a_eq|].
  exact (build_state_shape prog_a dfa_a build_prog_a_eq).
Defined.


Lemma build_start_witness :
  wf_prog prog_a ∧
  build (newDfaBuilder prog_a) = Ok (Some dfa_a, None) ∧
  (∀ j, j ∈ start_sig prog_a ↔
        significant prog_a j ∧ rtc (eps_edge prog_a) 0 j) ∧
  (start_sig prog_a ≠ [] →
   ∃ st, states dfa_a !! 0 = Some st ∧ st_insts st = start_sig prog_a).
Proof.
  split; [exact wf_prog_a|]. split; [exact build_prog_a_eq|].
  exact (build_start prog_a dfa_a wf_prog_a build_prog_a_eq).
Defined.

Lemma build_state_bound_witness :
  ∃ f r, build_frame (newDfaBuilder prog_a) = Ok (f, r) ∧
         length (states (b_dfa (f_d f))) ≤ S StateLimit.
Proof.
  destruct (build_frame_ok prog_a wf_prog_a) as (f & r & E & _).
  exists f, r. split; [exact E|].
  exact (proj1 (build_state_bound prog_a f r E)).
Defined.

Lemma worklist_invariant_witness :
  ∃ f, at_byte prog_a 0 0 f ∧
       NoDup (f_states f) ∧
       (∀ o, o ∈ f_states f → ∃ v, o = Some v ∧ v ∈ f_seen f).
Proof.
  destruct prog_a_init as [f E0].
  pose proof (at_init prog_a 0 f E0) as Hat.
  exists f. split; [exact Hat|].
  destruct (worklist_invariant prog_a 0 0 f Hat) as (Hnd & Hst & _).
  split; [exact Hnd|exact Hst].
Defined.

Lemma reprocess_keeps_witness :
  wf_prog prog_star ∧
  ∃ f, at_byte prog_star 0 0 f ∧ closed prog_star (f_d f) 0 ∧
       ∃ f', byte_loop 256 0 0 f = Ok (inr f') ∧ f_d f' = f_d f.
Proof.
  split; [exact wf_prog_star|].
  destruct star_second_pass as (f & Hat & Hcl).
  exists f. split; [exact Hat|]. split; [exact Hcl|].
  exact (reprocess_keeps prog_star 0 f wf_prog_star Hat Hcl).
Defined.

Lemma add_members_witness :
  targets_ok prog_star ∧
  set_ok (length prog_star) (newSparseSet 4) ∧
  0 < length prog_star ∧
  eps_closed prog_star (dense (newSparseSet 4)) ∧
  ∃ r, add (Dfa prog_star []) (newSparseSet 4) 0 = Ok r ∧
       eps_closed prog_star (dense r) ∧
       (∀ j, j ∈ dense r ↔
             j ∈ dense (newSparseSet 4) ∨ rtc (eps_edge prog_star) 0 j) ∧
       add (Dfa prog_star []) r 0 = Ok r.
Proof.
  assert (Ht : targets_ok prog_star) by (apply targets_okb_sound; reflexivity).
  assert (Hok : set_ok (length prog_star) (newSparseSet 4))
    by apply (set_ok_new 4).
  assert (Hip : 0 < length prog_star) by (simpl; lia).
  assert (Hcl : eps_closed prog_star (dense (newSparseSet 4))).
  { intros i j Hi. by apply elem_of_nil in Hi. }
  split; [exact Ht|]. split; [exact Hok|]. split; [exact Hip|].
  split; [exact Hcl|].
  exact (add_members (Dfa prog_star []) (newSparseSet 4) 0 Ht Hok Hip Hcl).
Defined.

Lemma add_swap_witness :
  targets_ok prog_alt ∧
  set_ok (length prog_alt) (newSparseSet 5) ∧
  1 < length prog_alt ∧ 3 < length prog_alt ∧
  eps_closed prog_alt (dense (newSparseSet 5)) ∧
  ∃ r1 r2 r1' r2',
    add (Dfa prog_alt []) (newSparseSet 5) 1 = Ok r1 ∧
    add (Dfa prog_alt []) r1 3 = Ok r2 ∧
    add (Dfa prog_alt []) (newSparseSet 5) 3 = Ok r1' ∧
    add (Dfa prog_alt []) r1' 1 = Ok r2' ∧
    dense r2 ≡ₚ dense r2'.
Proof.
  assert (Ht : targets_ok prog_alt) by (apply targets_okb_sound; reflexivity).
  assert (Hok : set_ok (length prog_alt) (newSparseSet 5))
    by apply (set_ok_new 5).
  assert (Ha : 1 < length prog_alt) by (simpl; lia).
  assert (Hb : 3 < length prog_alt) by (simpl; lia).
  assert (Hcl : eps_closed prog_alt (dense (newSparseSet 5))).
  { intros i j Hi. by apply elem_of_nil in Hi. }
  split; [exact Ht|]. split; [exact Hok|]. split; [exact Ha|].
  split; [exact Hb|]. split; [exact Hcl|].
  exact (add_swap (Dfa prog_alt []) (newSparseSet 5) 1 3 Ht Hok Ha Hb Hcl).
Defined.

Lemma add_returns_or_panics_witness :
  set_ok (cap (newSparseSet 1)) (newSparseSet 1) ∧
  add (Dfa [Jmp 5] []) (newSparseSet 1) 0 ≠ OutOfFuel ∧
  ∀ r, add (Dfa [Jmp 5] []) (newSparseSet 1) 0 = Ok r →
       set_ok (cap (newSparseSet 1)) r ∧
       length (dense (newSparseSet 1)) ≤ length (dense r).
Proof.
  assert (Hok : set_ok (cap (newSparseSet 1)) (newSparseSet 1))
    by apply (set_ok_new 1).
  split; [exact Hok|].
  exact (add_returns_or_panics (Dfa [Jmp 5] []) (newSparseSet 1) 0 Hok).
Defined.

Lemma add_out_of_range_witness :
  cap (newSparseSet 2) = length (insts (Dfa prog_a [])) ∧
  length (insts (Dfa prog_a [])) ≤ 2 ∧
  add (Dfa prog_a []) (newSparseSet 2) 2 = Panic ∧
  build (newDfaBuilder []) = Panic.
Proof.
  assert (Hcap : cap (newSparseSet 2) = length (insts (Dfa prog_a [])))
    by reflexivity.
  assert (Hip : length (insts (Dfa prog_a [])) ≤ 2) by (simpl; lia).
  split; [exact Hcap|]. split; [exact Hip|].
  exact (add_out_of_range (Dfa prog_a []) (newSparseSet 2) 2 Hcap Hip).
Defined.

Lemma run_last_range_panics_witness :
  cap (newSparseSet 1) = length (insts (Dfa [Range 97 97] [])) ∧
  0 ∈ dense (SparseSet 1 [0]) ∧
  insts (Dfa [Range 97 97] []) !! 0 = Some (Range 97 97) ∧
  op (Range 97 97) = OpRange ∧
  rangeStart (Range 97 97) ≤ 97 ≤ rangeEnd (Range 97 97) ∧
  1 = length (insts (Dfa [Range 97 97] [])) ∧
  run (Dfa [Range 97 97] []) (SparseSet 1 [0]) (newSparseSet 1) 97 = Panic.
Proof.
  assert (Hcap : cap (newSparseSet 1) = length (insts (Dfa [Range 97 97] [])))
    by reflexivity.
  assert (Hin : 0 ∈ dense (SparseSet 1 [0])) by (simpl; apply list_elem_of_here).
  assert (Hx : insts (Dfa [Range 97 97] []) !! 0 = Some (Range 97 97))
    by reflexivity.
  assert (Hop : op (Range 97 97) = OpRange) by reflexivity.
  assert (Hr : rangeStart (Range 97 97) ≤ 97 ≤ rangeEnd (Range 97 97))
    by (simpl; lia).
  assert (Hl : 1 = length (insts (Dfa [Range 97 97] []))) by reflexivity.
  split; [exact Hcap|]. split; [exact Hin|]. split; [exact Hx|].
  split; [exact Hop|]. split; [exact Hr|]. split; [exact Hl|].
  exact (run_last_range_panics _ _ _ 97 0 _ Hcap Hin Hx Hop Hr Hl).
Defined.
